(** * Secret Santa Trustee: a shallow embedding of [Trustee.py]

    The model, in the order of the source file:

    - [Random]    the part of Python's [random] module the program calls
                  ([seed], [shuffle]), over an abstract generator;
    - [Derange]   [gen_derangement], the shuffle-and-check loop;
    - [Text]      the [str] methods called on the lines typed ([strip],
                  [lower], [isdigit], [int], [split]);
    - [Store]     the temporary assignment file: [write_tmp_assign] and
                  [exit_cleanup];
    - [Session]   the configuration, [wait_then_clear] and the reveal
                  loop of [main], one line of input at a time;
    - [Main]      [prompt_names] and [main].

    The properties follow the model.

    Names and lines are byte strings ([string]).  The [str] methods are
    modelled on ASCII: [lower] folds [A]..[Z], [isdigit] knows [0]..[9],
    [strip] removes the ASCII white space; other bytes are left alone. *)

From stdpp Require Import gmap strings list fin_maps pretty.
From Stdlib Require Import ZArith Ascii.

Set Default Proof Using "Type".
Open Scope Z_scope.
Open Scope nat_scope.

(** ** Results of running Python code *)

(** The exceptions the program can meet. *)
Inductive exn :=
  | IndexError
  | KeyError
  | EOFError
  | OSError
  | SystemExit (code : Z).

(** A run either returns a value, raises, or is still looping when the
    step budget of the model is used up. *)
Inductive outcome (T : Type) :=
  | Returned (v : T)
  | Raised (e : exn)
  | Running.
Arguments Returned {T} v.
Arguments Raised {T} e.
Arguments Running {T}.

(** ** The [random] module *)

(** The generator behind [random.seed] and [random.shuffle]: a state, the
    state a seed determines, and [_randbelow(n)], which answers and moves
    the state on. *)
Record PRNG := {
  rng : Type;
  seed_state : Z → rng;
  randbelow : nat → rng → nat * rng
}.

(** [_randbelow(n)] answers in [range(n)]. *)
Definition in_range (R : PRNG) : Prop :=
  ∀ n g, 0 < n → (randbelow R n g).1 < n.

Module Random.
Section Shuffle.
Context (R : PRNG) {A : Type}.

(** [random.seed(a)]: whatever the state was, it is now [seed_state a]. *)
Definition seed (a : Z) (_ : rng R) : rng R := seed_state R a.

(** [x[i], x[j] = x[j], x[i]]; [None] stands for [IndexError]. *)
Definition swap (x : list A) (i j : nat) : option (list A) :=
  xj ← x !! j;
  xi ← x !! i;
  Some (<[j := xi]> (<[i := xj]> x)).

(** The body of [shuffle] for [i], [i-1], ..., [1]:
      j = randbelow(i + 1); x[i], x[j] = x[j], x[i] *)
Fixpoint shuffle_from (i : nat) (x : list A) (g : rng R)
  : option (list A * rng R) :=
  match i with
  | 0 => Some (x, g)
  | S i' =>
      let '(j, g') := randbelow R (S i) g in
      x' ← swap x i j;
      shuffle_from i' x' g'
  end.

(** [random.shuffle(x)]: [for i in reversed(range(1, len(x)))]. *)
Definition shuffle (x : list A) (g : rng R) : option (list A * rng R) :=
  shuffle_from (length x - 1) x g.
End Shuffle.
End Random.

(** ** [gen_derangement] *)

Module Derange.
Section Gen.
Context (R : PRNG).

(** [all(g != r for g, r in zip(givers, receivers))] *)
Definition no_self_gift (givers receivers : list string) : bool :=
  forallb (λ gr, bool_decide (gr.1 ≠ gr.2)) (zip givers receivers).

(** [dict(pairs)]: pairs are inserted left to right, a later pair
    overwrites an earlier one with the same key. *)
Definition dict (pairs : list (string * string)) : gmap string string :=
  foldl (λ m kv, <[kv.1 := kv.2]> m) ∅ pairs.

(** The [while True] loop; [receivers] is the list object that every
    iteration shuffles in place, so it is carried from one iteration to
    the next.  [fuel] bounds the number of iterations. *)
Fixpoint shuffle_and_check (fuel : nat) (givers receivers : list string)
    (g : rng R) : outcome (gmap string string * rng R) :=
  match fuel with
  | 0 => Running
  | S fuel' =>
      match Random.shuffle R receivers g with
      | None => Raised IndexError
      | Some (receivers', g') =>
          if no_self_gift givers receivers'
          then Returned (dict (zip givers receivers'), g')
          else shuffle_and_check fuel' givers receivers' g'
      end
  end.

(** [givers = names[:]; receivers = names[:]; while True: ...] *)
Definition gen_derangement (fuel : nat) (names : list string) (g : rng R)
  : outcome (gmap string string * rng R) :=
  shuffle_and_check fuel names names g.
End Gen.
End Derange.

(** ** The [str] methods the program calls *)

Module Text.
Definition nl : string := String "010"%char "".

(** [c.isspace()] for an ASCII character: TAB..CR, FS..US and space. *)
Definition is_space (c : ascii) : bool :=
  let n := nat_of_ascii c in
  ((9 <=? n) && (n <=? 13)) || ((28 <=? n) && (n <=? 32)).

Fixpoint lstrip (s : string) : string :=
  match s with
  | String c s' => if is_space c then lstrip s' else s
  | EmptyString => EmptyString
  end.

(** [s.strip()] *)
Definition strip (s : string) : string :=
  String.rev (lstrip (String.rev (lstrip s))).

Definition lower_char (c : ascii) : ascii :=
  let n := nat_of_ascii c in
  if (65 <=? n) && (n <=? 90) then ascii_of_nat (n + 32) else c.

(** [s.lower()] *)
Fixpoint lower (s : string) : string :=
  match s with
  | String c s' => String (lower_char c) (lower s')
  | EmptyString => EmptyString
  end.

Definition is_digit (c : ascii) : bool :=
  let n := nat_of_ascii c in (48 <=? n) && (n <=? 57).

Fixpoint all_digits (s : string) : bool :=
  match s with
  | String c s' => is_digit c && all_digits s'
  | EmptyString => true
  end.

(** [s.isdigit()]: at least one character, and all of them digits. *)
Definition isdigit (s : string) : bool :=
  match s with
  | EmptyString => false
  | _ => all_digits s
  end.

Fixpoint int_from (acc : nat) (s : string) : nat :=
  match s with
  | String c s' => int_from (10 * acc + (nat_of_ascii c - 48)) s'
  | EmptyString => acc
  end.

(** [int(s)] for a string of digits. *)
Definition int (s : string) : nat := int_from 0 s.

Fixpoint split_from (sep : ascii) (cur : string) (s : string) : list string :=
  match s with
  | String c s' =>
      if decide (c = sep) then String.rev cur :: split_from sep "" s'
      else split_from sep (String c cur) s'
  | EmptyString => [String.rev cur]
  end.

(** [s.split(sep)] for a one-character separator. *)
Definition split (sep : ascii) (s : string) : list string :=
  split_from sep "" s.
End Text.

(** ** The temporary assignment file *)

Module Store.
(** A file of the temporary directory: its permission bits and the
    mapping [json.dump] wrote into it ([None] until it is written). *)
Record file := {
  mode : N;
  content : option (gmap string string)
}.

(** What the file functions of the program read and write: the files
    by path, the paths whose removal the operating system refuses
    (the reason [exit_cleanup] wraps [os.remove] in [try]), and the
    global [TMP_ASSIGN_PATH]. *)
Record state := {
  files : gmap string file;
  undeletable : gset string;
  TMP_ASSIGN_PATH : option string
}.

(** [0o600] *)
Definition owner_rw : N := 384.

(** [os.path.exists(path)]; nothing exists at the empty path. *)
Definition os_path_exists (path : string) (st : state) : bool :=
  bool_decide (path ≠ "" ∧ is_Some (files st !! path)).

(** [os.remove(path)] *)
Definition os_remove (path : string) (st : state) : outcome state :=
  if bool_decide (path ∈ undeletable st) then Raised OSError
  else if os_path_exists path st then
    Returned {| files := delete path (files st);
                undeletable := undeletable st;
                TMP_ASSIGN_PATH := TMP_ASSIGN_PATH st |}
  else Raised OSError.

(** The truth value of [TMP_ASSIGN_PATH]: [None] and [""] are false. *)
Definition truthy (p : option string) : bool :=
  match p with
  | Some s => bool_decide (s ≠ "")
  | None => false
  end.

(** [exit_cleanup()]:
      if TMP_ASSIGN_PATH and os.path.exists(TMP_ASSIGN_PATH):
          try: os.remove(TMP_ASSIGN_PATH)
          except Exception: pass *)
Definition exit_cleanup (st : state) : outcome state :=
  match TMP_ASSIGN_PATH st with
  | Some path =>
      if truthy (Some path) && os_path_exists path st then
        match os_remove path st with
        | Returned st' => Returned st'
        | Raised _ | Running => Returned st
        end
      else Returned st
  | None => Returned st
  end.

(** The module is loaded: [TMP_ASSIGN_PATH: Optional[str] = None]. *)
Definition load (st : state) : state :=
  {| files := files st;
     undeletable := undeletable st;
     TMP_ASSIGN_PATH := None |}.

(** [tempfile.mkstemp(prefix=..., suffix=...)] with the directory and
    the random part of the name chosen by the environment; the file is
    created empty, readable and writable by its owner only.  A name
    that is taken is an error. *)
Definition mkstemp (dir stem pre suf : string) (st : state)
  : outcome (string * state) :=
  let path := dir +:+ pre +:+ stem +:+ suf in
  if os_path_exists path st then Raised OSError
  else Returned (path,
         {| files := <[path := {| mode := owner_rw; content := None |}]> (files st);
            undeletable := undeletable st;
            TMP_ASSIGN_PATH := TMP_ASSIGN_PATH st |}).

(** [write_tmp_assign(assignments)]:
      fd, path = tempfile.mkstemp(prefix="secret_santa_", suffix=".json")
      os.chmod(path, 0o600)
      json.dump(assignments, open(path, "w"))
      TMP_ASSIGN_PATH = path *)
Definition write_tmp_assign (dir stem : string)
    (assignments : gmap string string) (st : state) : outcome state :=
  match mkstemp dir stem "secret_santa_" ".json" st with
  | Returned (path, st1) =>
      Returned
        {| files := <[path := {| mode := owner_rw;
                                 content := Some assignments |}]> (files st1);
           undeletable := undeletable st1;
           TMP_ASSIGN_PATH := Some path |}
  | Raised e => Raised e
  | Running => Running
  end.
End Store.

(** ** The reveal session *)

Module Session.
Import Text.

(** What the terminal sees. *)
Inductive event :=
  | Print (s : string)        (* print(s) *)
  | Input (prompt : string)   (* input(prompt) *)
  | Clear                     (* clear_screen_and_scrollback() *)
  | Sleep (sec : Z).          (* time.sleep(sec) *)

(** An [int] slot can hold a [bool]: [REVEAL_TIMEOUT_SEC_DEFAULT] is
    [False]. *)
Inductive pyint :=
  | Int (z : Z)
  | Bool (b : bool).

Definition int_of (v : pyint) : Z :=
  match v with
  | Int z => z
  | Bool b => if b then 1%Z else 0%Z
  end.

(** [f"{v}"] *)
Definition fmt (v : pyint) : string :=
  match v with
  | Int z => pretty z
  | Bool b => if b then "True" else "False"
  end.

Definition ONE_SHOT_REVEAL_DEFAULT : bool := true.
Definition REVEAL_NEEDS_ENTER_DEFAULT : bool := true.
Definition REVEAL_TIMEOUT_SEC_DEFAULT : pyint := Bool false.

(** The parsed command line. *)
Record args := {
  allow_repeat : bool;
  timeout : option Z;
  no_enter : bool;
  seed : option Z
}.

(** The runtime configuration [main] derives from it. *)
Record config := {
  one_shot_reveal : bool;
  reveal_needs_enter : bool;
  reveal_timeout_sec : pyint
}.

Definition configure (a : args) : config :=
  if no_enter a then
    {| one_shot_reveal := negb (allow_repeat a);
       reveal_needs_enter := false;
       reveal_timeout_sec := Int 0 |}
  else match timeout a with
  | Some t =>
    {| one_shot_reveal := negb (allow_repeat a);
       reveal_needs_enter := false;
       reveal_timeout_sec := Int t |}
  | None =>
    {| one_shot_reveal := negb (allow_repeat a);
       reveal_needs_enter := REVEAL_NEEDS_ENTER_DEFAULT;
       reveal_timeout_sec := REVEAL_TIMEOUT_SEC_DEFAULT |}
  end.

(** The program waits for a line in three places; a control state says
    in which one it is waiting, or that [main] is over. *)
Inductive control :=
  | AwaitingQuery                              (* input("\nEnter your name: ") *)
  | Disambiguating (candidates : list string)  (* input("Enter the number ...") *)
  | AwaitingEnter                              (* input("\n(Press Enter ...") *)
  | Terminated                                 (* main returned *)
  | Crashed (e : exn).                         (* an exception left main *)

(** The control state and the view ledger [viewed]. *)
Record session := {
  ctl : control;
  viewed : gset string
}.

Definition prompt_query : string := nl +:+ "Enter your name: ".
Definition prompt_selection : string :=
  "Enter the number or exact name (or type 'cancel' to abort): ".
Definition prompt_enter : string :=
  nl +:+ "(Press Enter to clear, and pass to next person)".

Definition msg_header (real_name : string) : string :=
  "*** ONLY FOR " +:+ real_name +:+ " ***".
Definition msg_gift (recipient : string) : string :=
  "You will gift to: " +:+ recipient.
Definition msg_candidate (idx : nat) (candidate : string) : string :=
  "  " +:+ pretty idx +:+ ". " +:+ candidate.
Definition msg_clearing_now : string :=
  nl +:+ "(Clearing now. Please pass the device to the next person.)".
Definition msg_countdown (timeout_sec : pyint) : string :=
  nl +:+ "(This message will be automatically cleared in " +:+ fmt timeout_sec
     +:+ " seconds. Please pass the device to the next person afterward.)".
Definition msg_already_viewed : string :=
  "You have already viewed your assignment.".
Definition msg_exiting : string :=
  "Exiting. Temporary file cleaned up. Happy holidays!".
Definition msg_eof : string := nl +:+ "EOF received. Exiting.".

(** [wait_then_clear(needs_enter, timeout_sec)], up to the point where
    it waits for Enter ([AwaitingEnter]; the clear follows the line) or
    has cleared the screen. *)
Definition wait_then_clear (needs_enter : bool) (timeout_sec : option pyint)
  : control * list event :=
  if needs_enter then (AwaitingEnter, [])
  else match timeout_sec with
  | Some t =>
      if (0 <=? int_of t)%Z then
        if (int_of t =? 0)%Z then
          (AwaitingQuery, [Print msg_clearing_now; Clear])
        else
          (AwaitingQuery, [Print (msg_countdown t); Sleep (int_of t); Clear])
      else (AwaitingQuery, [Clear])
  | None => (AwaitingQuery, [Clear])
  end.

(** The lookup table of [main]:
      for original in names:
          lc_to_names.setdefault(original.lower(), []).append(original) *)
Definition build_lookup (names : list string) : gmap string (list string) :=
  foldl (λ m original,
           <[lower original := default [] (m !! lower original) ++ [original]]> m)
        ∅ names.

Section Loop.
Context (cfg : config) (assignments : gmap string string)
        (lc_to_names : gmap string (list string)).

(** From [if one_shot_reveal and real_name in viewed] to the end of
    the loop body. *)
Definition reveal (real_name : string) (v : gset string)
  : session * list event :=
  if one_shot_reveal cfg && bool_decide (real_name ∈ v) then
    ({| ctl := AwaitingQuery; viewed := v |}, [Print msg_already_viewed])
  else match assignments !! real_name with
  | None => ({| ctl := Crashed KeyError; viewed := v |}, [])
  | Some recipient =>
      let '(c, evs) := wait_then_clear (reveal_needs_enter cfg)
                                       (Some (reveal_timeout_sec cfg)) in
      ({| ctl := c; viewed := {[real_name]} ∪ v |},
       [Clear; Print (msg_header real_name); Print (msg_gift recipient)]
         ++ evs)
  end.

(** [for idx, candidate in enumerate(candidates, start=1): print(...)] *)
Definition list_candidates (candidates : list string) : list event :=
  imap (λ i candidate, Print (msg_candidate (S i) candidate)) candidates.

(** The loop body for the line read at the main prompt. *)
Definition on_query (line : string) (v : gset string)
  : session * list event :=
  let query := strip line in
  if bool_decide (query = "") then
    ({| ctl := AwaitingQuery; viewed := v |},
     [Print "Please enter a non-empty name."])
  else if bool_decide (lower query ∈ ["exit"; "quit"]) then
    ({| ctl := Terminated; viewed := v |}, [Print msg_exiting])
  else
    let key := lower query in
    match lc_to_names !! key with
    | None =>
        ({| ctl := AwaitingQuery; viewed := v |},
         [Print "Name not found. Please re-check spelling and try again."])
    | Some candidates =>
        if bool_decide (query ∈ candidates) then reveal query v
        else match candidates with
        | [only] => reveal only v
        | _ =>
            ({| ctl := Disambiguating candidates; viewed := v |},
             Print "Multiple participants match that entry:"
               :: list_candidates candidates)
        end
    end.

(** The body of the inner loop for the line read at its prompt, and
    what follows the loop. *)
Definition on_selection (candidates : list string) (line : string)
    (v : gset string) : session * list event :=
  let selection := strip line in
  if bool_decide (selection = "") then
    ({| ctl := Disambiguating candidates; viewed := v |},
     [Print "Please enter a selection."])
  else if bool_decide (lower selection ∈ ["cancel"; "abort"; "back"]) then
    ({| ctl := AwaitingQuery; viewed := v |},
     [Print "Selection canceled. Returning to main prompt."])
  else if isdigit selection then
    let idx := int selection in
    if (1 <=? idx) && (idx <=? length candidates) then
      match candidates !! (idx - 1) with
      | Some real_name => reveal real_name v
      | None => ({| ctl := Crashed IndexError; viewed := v |}, [])
      end
    else
      ({| ctl := Disambiguating candidates; viewed := v |},
       [Print "Number out of range. Try again."])
  else if bool_decide (selection ∈ candidates) then reveal selection v
  else
    ({| ctl := Disambiguating candidates; viewed := v |},
     [Print "Input did not match any option. Try again."]).

(** One line of input, taken where the program is waiting. *)
Definition step (s : session) (line : string) : session * list event :=
  match ctl s with
  | AwaitingQuery =>
      let '(s', evs) := on_query line (viewed s) in
      (s', Input prompt_query :: evs)
  | Disambiguating candidates =>
      let '(s', evs) := on_selection candidates line (viewed s) in
      (s', Input prompt_selection :: evs)
  | AwaitingEnter =>
      ({| ctl := AwaitingQuery; viewed := viewed s |},
       [Input prompt_enter; Clear])
  | Terminated | Crashed _ => (s, [])
  end.

(** End of input: [input] raises [EOFError], which the loop catches. *)
Definition eof (s : session) : session * list event :=
  let bye p :=
    ({| ctl := Terminated; viewed := viewed s |}, [Input p; Print msg_eof]) in
  match ctl s with
  | AwaitingQuery => bye prompt_query
  | Disambiguating _ => bye prompt_selection
  | AwaitingEnter => bye prompt_enter
  | Terminated | Crashed _ => (s, [])
  end.

(** The lines of [stdin] one after the other, without the end. *)
Fixpoint steps (s : session) (stdin : list string) : session * list event :=
  match stdin with
  | [] => (s, [])
  | line :: rest =>
      let '(s1, evs1) := step s line in
      let '(s2, evs2) := steps s1 rest in
      (s2, evs1 ++ evs2)
  end.

(** The whole loop on a finite [stdin]. *)
Definition run (s : session) (stdin : list string) : session * list event :=
  let '(s1, evs1) := steps s stdin in
  let '(s2, evs2) := eof s1 in
  (s2, evs1 ++ evs2).
End Loop.

(** [viewed = set()], waiting at the main prompt. *)
Definition start : session := {| ctl := AwaitingQuery; viewed := ∅ |}.

(** Events that show nothing of an assignment: neither the header of a
    reveal nor the line with the recipient. *)
Definition quiet (evs : list event) : Prop :=
  ∀ e, e ∈ evs →
    (∀ who, e ≠ Print (msg_header who)) ∧ (∀ r, e ≠ Print (msg_gift r)).
End Session.

(** ** [prompt_names] and [main] *)

Module Main.
Import Text Session.

(** The loop of [prompt_names] that drops repeated names:
      for n in names:
          if n not in seen: seen.add(n); uniq.append(n) *)
Fixpoint dedup (names : list string) (seen : gset string)
    (uniq : list string) : list string :=
  match names with
  | [] => uniq
  | n :: rest =>
      if bool_decide (n ∈ seen) then dedup rest seen uniq
      else dedup rest ({[n]} ∪ seen) (uniq ++ [n])
  end.

(** The names a line of input stands for:
      raw = line.strip()
      names = [n.strip() for n in raw.split(",") if n.strip()] *)
Definition parse_names (line : string) : list string :=
  let raw := strip line in
  let names :=
    strip <$> filter (λ n, strip n ≠ "") (split ","%char raw) in
  dedup names ∅ [].

(** [prompt_names()] on the lines of [stdin]: the names and the lines
    left, or the exception that ends the program. *)
Definition prompt_names (stdin : list string)
  : outcome (list string * list string) * list event :=
  let asked :=
    [Print "Enter all participant names, comma-separated (at least 2):";
     Input "> "] in
  match stdin with
  | [] => (Raised EOFError, asked)
  | line :: rest =>
      let uniq := parse_names line in
      if length uniq <? 2 then
        (Raised (SystemExit 1),
         asked ++ [Print "Need at least 2 distinct names. Exiting."])
      else (Returned (uniq, rest), asked)
  end.

Section Program.
Context (R : PRNG).

(** How a run of the program ended, what it showed, and what it left
    behind. *)
Record result := {
  status : outcome unit;
  output : list event;
  generator : rng R;
  store : Store.state
}.

(** The exit status of the process. *)
Definition exit_code (r : result) : option Z :=
  match status r with
  | Returned _ => Some 0%Z
  | Raised (SystemExit code) => Some code
  | Raised _ => Some 1%Z
  | Running => None
  end.

(** Leaving the interpreter: the handler registered with [atexit]
    runs. *)
Definition at_exit (how : outcome unit) (out : list event) (g : rng R)
    (st : Store.state) : result :=
  {| status := how;
     output := out;
     generator := g;
     store := match Store.exit_cleanup st with
              | Returned st' => st'
              | Raised _ | Running => st
              end |}.

Definition status_of (c : control) : outcome unit :=
  match c with
  | Crashed e => Raised e
  | _ => Returned ()
  end.

(** [main()].  [a] is the parsed command line, [dir] and [stem] the
    temporary directory and the random part of the file name, [g] the
    state of the generator when the program starts and [st] the files
    it finds; [fuel] bounds the iterations of [gen_derangement]. *)
Definition main (fuel : nat) (a : args) (dir stem : string)
    (stdin : list string) (g : rng R) (st : Store.state) : result :=
  let st := Store.load st in
  let cfg := configure a in
  let g0 := match seed a with
            | Some n => Random.seed R n g
            | None => g
            end in
  let banner := [Print "Secret Santa Trustee"] in
  match prompt_names stdin with
  | (Returned (names, rest), out1) =>
      match Derange.gen_derangement R fuel names g0 with
      | Returned (assignments, g1) =>
          match Store.write_tmp_assign dir stem assignments st with
          | Returned st1 =>
              let lc_to_names := build_lookup names in
              let '(s, evs) :=
                run cfg assignments lc_to_names start rest in
              at_exit (status_of (ctl s))
                (banner ++ out1 ++
                 [Clear;
                  Print "Assignments generated. Private reveal mode started.";
                  Print "Type your NAME to see whom you gift to (case-insensitive).";
                  Print "Type 'exit' or 'quit' to end (temporary file will be deleted)."]
                 ++ evs)
                g1 st1
          | Raised e => at_exit (Raised e) (banner ++ out1) g1 st
          | Running =>
              {| status := Running; output := banner ++ out1;
                 generator := g1; store := st |}
          end
      | Raised e => at_exit (Raised e) (banner ++ out1) g0 st
      | Running =>
          {| status := Running; output := banner ++ out1;
             generator := g0; store := st |}
      end
  | (Raised e, out1) => at_exit (Raised e) (banner ++ out1) g0 st
  | (Running, out1) =>
      {| status := Running; output := banner ++ out1;
         generator := g0; store := st |}
  end.
End Program.
End Main.

(** ** Generators to run the model with *)

(** A generator that replays a recorded tape of raw draws, reducing each
    into range, and answers 0 once the tape is used up.  Seeding leaves
    it with an empty tape. *)
Definition tape : PRNG :=
  {| rng := list nat;
     seed_state := λ _, [];
     randbelow := λ n t,
       match t with
       | d :: t' => (d `mod` n, t')
       | [] => (0, [])
       end |}.

(** A linear congruential generator (the constants of ANSI C [rand]). *)
Definition lcg : PRNG :=
  {| rng := Z;
     seed_state := λ a, (a `mod` 2147483648)%Z;
     randbelow := λ n g,
       let g' := ((1103515245 * g + 12345) `mod` 2147483648)%Z in
       (Z.to_nat (g' `div` 65536) `mod` n, g') |}.


(** The draws one [shuffle] of a list of [i + 1] elements can make, most
    significant first: [j] in [range(i + 1)] for [i], then for [i - 1],
    down to 1. *)
Fixpoint draws (i : nat) : list (list nat) :=
  match i with
  | 0 => [[]]
  | S i' => j ← seq 0 (S i); (λ v, j :: v) <$> draws i'
  end.


(** Has the run returned? *)
Definition returned {T} (o : outcome T) : bool :=
  match o with
  | Returned _ => true
  | _ => false
  end.

(** The arrangement a shuffle of [x] reaches on the draws [v]. *)
Definition arranged (x : list string) (v : list nat) : list string :=
  match Random.shuffle tape x v with
  | Some (y, _) => y
  | None => x
  end.


(** ** Observers the further properties are stated with *)


#[global] Instance event_eq_dec : EqDecision Session.event.
Proof. solve_decision. Defined.

#[global] Instance pyint_eq_dec : EqDecision Session.pyint.
Proof. solve_decision. Defined.

(** * Properties *)

(** ** Shuffling permutes *)

Module RandomFacts.
Section Shuffle.
Context (R : PRNG) {A : Type}.
Implicit Types x y : list A.

Lemma swap_Some x i j :
  i < length x → j < length x → is_Some (Random.swap x i j).
Proof.
  intros [xi Hi]%lookup_lt_is_Some_2 [xj Hj]%lookup_lt_is_Some_2.
  unfold Random.swap. rewrite Hi, Hj. simpl. eauto.
Qed.

Lemma swap_Permutation x i j y : Random.swap x i j = Some y → y ≡ₚ x.
Proof.
  unfold Random.swap. intros H.
  destruct (x !! j) as [xj|] eqn:Hj; simplify_eq/=.
  destruct (x !! i) as [xi|] eqn:Hi; simplify_eq/=.
  by apply Permutation_insert_swap.
Qed.

Lemma swap_length x i j y : Random.swap x i j = Some y → length y = length x.
Proof. intros H%swap_Permutation. by rewrite H. Qed.

Lemma shuffle_from_Permutation i x g y g' :
  Random.shuffle_from R i x g = Some (y, g') → y ≡ₚ x.
Proof.
  revert x g. induction i as [|i IH]; intros x g; simpl.
  - by intros [= -> _].
  - destruct (randbelow R (S (S i)) g) as [j g1].
    destruct (Random.swap x (S i) j) as [x1|] eqn:Hs; simpl; [|done].
    intros ->%IH. by eapply swap_Permutation.
Qed.

Lemma shuffle_Permutation x g y g' :
  Random.shuffle R x g = Some (y, g') → y ≡ₚ x.
Proof. apply shuffle_from_Permutation. Qed.

(** With answers in range, no index is out of bounds. *)
Lemma shuffle_from_Some i x g :
  in_range R → i < length x → is_Some (Random.shuffle_from R i x g).
Proof.
  intros HR. revert x g. induction i as [|i IH]; intros x g Hi; simpl.
  - eauto.
  - pose proof (HR (S (S i)) g ltac:(lia)) as Hj.
    destruct (randbelow R (S (S i)) g) as [j g1]; simpl in Hj.
    destruct (swap_Some x (S i) j) as [x1 Hx1]; [lia..|].
    rewrite Hx1; simpl. apply IH.
    apply swap_length in Hx1. lia.
Qed.

Lemma shuffle_Some x g : in_range R → is_Some (Random.shuffle R x g).
Proof.
  intros HR. unfold Random.shuffle. destruct x as [|a x]; [simpl; eauto|].
  apply shuffle_from_Some; [done|simpl; lia].
Qed.
End Shuffle.
End RandomFacts.

(** ** The derangement generator *)

Module DerangeFacts.
Import Derange.

Lemma dict_snoc pairs kv : dict (pairs ++ [kv]) = <[kv.1 := kv.2]> (dict pairs).
Proof. unfold dict. by rewrite foldl_app. Qed.

Lemma dict_list_to_map pairs : dict pairs = list_to_map (reverse pairs).
Proof.
  induction pairs as [|kv pairs IH] using rev_ind; [done|].
  rewrite dict_snoc, reverse_app, IH. by destruct kv.
Qed.

Lemma dict_to_list pairs : NoDup pairs.*1 → map_to_list (dict pairs) ≡ₚ pairs.
Proof.
  intros Hnd. rewrite dict_list_to_map, map_to_list_to_map.
  - apply reverse_Permutation.
  - by rewrite fmap_reverse, reverse_Permutation.
Qed.

Lemma no_self_gift_spec givers receivers :
  no_self_gift givers receivers = true ↔
  ∀ p r, (p, r) ∈ zip givers receivers → r ≠ p.
Proof.
  unfold no_self_gift. rewrite forallb_forall. split.
  - intros H p r Hin%list_elem_of_In. apply H in Hin.
    apply bool_decide_eq_true in Hin. simpl in Hin. congruence.
  - intros H [p r] Hin%list_elem_of_In. apply bool_decide_eq_true. simpl.
    apply H in Hin. congruence.
Qed.

Section Gen.
Context (R : PRNG).

(** What the loop returns is built from an arrangement of the names
    that passed the check. *)
Lemma shuffle_and_check_returned fuel givers receivers g m g' :
  shuffle_and_check R fuel givers receivers g = Returned (m, g') →
  ∃ rs, rs ≡ₚ receivers ∧ no_self_gift givers rs = true
        ∧ m = dict (zip givers rs).
Proof.
  revert receivers g.
  induction fuel as [|fuel IH]; intros receivers g; simpl; [done|].
  destruct (Random.shuffle R receivers g) as [[rs g1]|] eqn:Hsh; [|done].
  apply RandomFacts.shuffle_Permutation in Hsh.
  destruct (no_self_gift givers rs) eqn:Hok.
  - intros [= <- <-]. eauto.
  - intros (rs' & Hp & ? & ?)%IH. exists rs'. split; [by etrans|done].
Qed.

(** More fuel does not change a returned result. *)
Lemma shuffle_and_check_mono fuel fuel' givers receivers g v :
  fuel ≤ fuel' →
  shuffle_and_check R fuel givers receivers g = Returned v →
  shuffle_and_check R fuel' givers receivers g = Returned v.
Proof.
  revert fuel' receivers g.
  induction fuel as [|fuel IH]; intros fuel' receivers g Hle; simpl; [done|].
  destruct fuel' as [|fuel']; [lia|]. simpl.
  destruct (Random.shuffle R receivers g) as [[rs g1]|]; [|done].
  destruct (no_self_gift givers rs); [done|]. apply IH. lia.
Qed.

(** With answers in range the loop never raises. *)
Lemma shuffle_and_check_no_raise fuel givers receivers g e :
  in_range R → shuffle_and_check R fuel givers receivers g ≠ Raised e.
Proof.
  intros HR. revert receivers g.
  induction fuel as [|fuel IH]; intros receivers g; simpl; [done|].
  destruct (RandomFacts.shuffle_Some R receivers g HR) as [[rs g1] ->].
  destruct (no_self_gift givers rs); [done|]. apply IH.
Qed.
End Gen.

Lemma derangement_of_arrangement names rs :
  NoDup names → rs ≡ₚ names → no_self_gift names rs = true →
  let m := dict (zip names rs) in
  (map_to_list m).*1 ≡ₚ names ∧ (map_to_list m).*2 ≡ₚ names
  ∧ ∀ p r, m !! p = Some r → r ≠ p.
Proof.
  intros Hnd Hp Hok m.
  assert (length rs = length names) as Hlen by by rewrite Hp.
  assert (map_to_list m ≡ₚ zip names rs) as Hm.
  { apply dict_to_list. by rewrite fst_zip by lia. }
  split_and!.
  - by rewrite Hm, fst_zip by lia.
  - by rewrite Hm, snd_zip by lia.
  - intros p r Hl%elem_of_map_to_list. rewrite Hm in Hl.
    revert Hl. by apply no_self_gift_spec.
Qed.
End DerangeFacts.

(** ** Counting the draws that keep the loop going *)

Module TapeFacts.
Import Derange.




Lemma elem_of_draws_S i v :
  v ∈ draws (S i) ↔ ∃ j v', v = j :: v' ∧ j ≤ S i ∧ v' ∈ draws i.
Proof.
  cbn [draws]. rewrite list_elem_of_bind. split.
  - intros (j & (v' & -> & Hv')%list_elem_of_fmap & Hj%elem_of_seq).
    exists j, v'. split_and!; [done|lia|done].
  - intros (j & v' & -> & Hj & Hv'). exists j. split.
    + apply list_elem_of_fmap. eauto.
    + apply elem_of_seq. lia.
Qed.

Lemma shuffle_from_tape_cons {A} i (x : list A) j t :
  j ≤ S i →
  Random.shuffle_from tape (S i) x (j :: t)
  = x' ← Random.swap x (S i) j; Random.shuffle_from tape i x' t.
Proof.
  intros Hj. cbn [Random.shuffle_from randbelow tape].
  by rewrite Nat.mod_small by lia.
Qed.

(** A shuffle reads its own draws off the tape and nothing more. *)
Lemma shuffle_from_tape_app {A} i (x : list A) v :
  i < length x → v ∈ draws i →
  ∃ y, ∀ t, Random.shuffle_from tape i x (v ++ t) = Some (y, t).
Proof.
  revert x v. induction i as [|i IH]; intros x v Hi Hv.
  - apply list_elem_of_singleton in Hv as ->. by exists x.
  - apply elem_of_draws_S in Hv as (j & v' & -> & Hj & Hv').
    destruct (RandomFacts.swap_Some x (S i) j) as [x1 Hx1]; [lia..|].
    destruct (IH x1 v') as [y Hy]; [|done|].
    { apply RandomFacts.swap_length in Hx1. lia. }
    exists y. intros t. simpl app.
    rewrite shuffle_from_tape_cons, Hx1 by done. apply Hy.
Qed.
End TapeFacts.

Module Acceptance.
Import Derange.


Lemma swap_lookup_other {A} (x y : list A) i j k :
  Random.swap x i j = Some y → k ≠ i → k ≠ j → y !! k = x !! k.
Proof.
  unfold Random.swap. intros H Hi Hj.
  destruct (x !! j) as [xj|]; simplify_eq/=.
  destruct (x !! i) as [xi|]; simplify_eq/=.
  by rewrite !list_lookup_insert_ne by done.
Qed.


Section Greedy.
Context (names : list string) (Hnd : NoDup names).


End Greedy.
End Acceptance.

Module Counting.
Import Derange.




Lemma shuffle_tape_arranged (x : list string) v t :
  1 ≤ length x → v ∈ draws (length x - 1) →
  Random.shuffle tape x (v ++ t) = Some (arranged x v, t).
Proof.
  intros Hx Hv. unfold arranged, Random.shuffle.
  destruct (TapeFacts.shuffle_from_tape_app (length x - 1) x v) as [y Hy];
    [lia|done|].
  pose proof (Hy []) as Hnil. rewrite app_nil_r in Hnil.
  by rewrite Hnil, Hy.
Qed.


(** One iteration on a tape that starts with the draws of a shuffle. *)
Lemma shuffle_and_check_tape k givers (x : list string) v t :
  1 ≤ length x → v ∈ draws (length x - 1) →
  shuffle_and_check tape (S k) givers x (v ++ t)
  = if no_self_gift givers (arranged x v)
    then Returned (dict (zip givers (arranged x v)), t)
    else shuffle_and_check tape k givers (arranged x v) t.
Proof.
  intros Hx Hv. cbn [shuffle_and_check].
  by rewrite shuffle_tape_arranged.
Qed.

Section Count.
Context (names : list string) (Hnd : NoDup names) (Hn : 2 ≤ length names).


End Count.
End Counting.

(** ** The generator: what it returns, and when *)

Module DerangeSpec.
Import Derange.

Lemma returned_inv {T} (o : outcome T) :
  returned o = true → ∃ v, o = Returned v.
Proof. destruct o; [by eauto|done..]. Defined.



(** Every name is a key of the mapping returned. *)
Lemma keys_of_names (R : PRNG) fuel names g m g' :
  NoDup names →
  gen_derangement R fuel names g = Returned (m, g') →
  ∀ p, p ∈ names → ∃ r, m !! p = Some r ∧ r ≠ p.
Proof.
  intros Hnd (rs & Hp & Hok & ->)%DerangeFacts.shuffle_and_check_returned.
  destruct (DerangeFacts.derangement_of_arrangement names rs)
    as (Hk & Hv & Hfix); [done..|].
  intros p Hin. rewrite <-Hk in Hin.
  apply list_elem_of_fmap in Hin as ([p' r] & -> & Hin).
  apply elem_of_map_to_list in Hin. eauto.
Qed.

(** C1.  For a list of two or more distinct names, the mapping that
    [gen_derangement] returns is a permutation of the names without a
    fixed point: its keys are the names, each once; its values are the
    names, each once; and every name is mapped to a different name. *)
Theorem gen_derangement_is_derangement (R : PRNG) fuel names g m g' :
  NoDup names → 2 ≤ length names →
  gen_derangement R fuel names g = Returned (m, g') →
  (map_to_list m).*1 ≡ₚ names
  ∧ (map_to_list m).*2 ≡ₚ names
  ∧ ∀ p, p ∈ names → ∃ r, m !! p = Some r ∧ r ≠ p.
Proof.
  intros Hnd _ Hgen. pose proof (keys_of_names R _ _ _ _ _ Hnd Hgen) as Hkeys.
  apply DerangeFacts.shuffle_and_check_returned in Hgen
    as (rs & Hp & Hok & ->).
  destruct (DerangeFacts.derangement_of_arrangement names rs)
    as (Hk & Hv & _); done.
Qed.

Lemma gen_derangement_is_derangement_witness :
  let names := ["Ann"; "Bob"; "Cy"; "Di"] in
  NoDup names ∧ 2 ≤ length names
  ∧ ∃ m g', gen_derangement lcg 8 names 2024%Z = Returned (m, g')
      ∧ (map_to_list m).*1 ≡ₚ names
      ∧ (map_to_list m).*2 ≡ₚ names
      ∧ ∀ p, p ∈ names → ∃ r, m !! p = Some r ∧ r ≠ p.
Proof.
  intros names.
  assert (NoDup names) as Hnd.
  { apply (bool_decide_unpack _). vm_compute. exact I. }
  assert (2 ≤ length names) as Hn by (simpl; lia).
  split; [exact Hnd|]. split; [exact Hn|].
  destruct (returned_inv (gen_derangement lcg 8 names 2024%Z))
    as [[m g'] E]; [vm_compute; reflexivity|].
  exists m, g'. split; [exact E|].
  exact (gen_derangement_is_derangement lcg 8 names 2024%Z m g' Hnd Hn E).
Defined.

(** C9.  On two distinct names [A] and [B] the generator can only return
    the swap: [A] gives to [B] and [B] gives to [A]. *)
Theorem gen_derangement_two_is_swap (R : PRNG) fuel (A B : string) g m g' :
  A ≠ B →
  gen_derangement R fuel [A; B] g = Returned (m, g') →
  m = <[B := A]> (<[A := B]> ∅).
Proof.
  intros Hne (rs & Hp & Hok & ->)%DerangeFacts.shuffle_and_check_returned.
  symmetry in Hp. apply Permutation_length_2_inv in Hp as [->| ->].
  - exfalso. apply DerangeFacts.no_self_gift_spec with (p := A) (r := A) in Hok;
      [done|]. simpl. set_solver.
  - done.
Qed.

Lemma gen_derangement_two_is_swap_witness :
  "Ann" ≠ "Bob"
  ∧ ∃ m g', gen_derangement lcg 8 ["Ann"; "Bob"] 5%Z = Returned (m, g')
      ∧ m = <["Bob" := "Ann"]> (<["Ann" := "Bob"]> ∅).
Proof.
  assert ("Ann" ≠ "Bob") as Hne by discriminate.
  split; [exact Hne|].
  destruct (returned_inv (gen_derangement lcg 8 ["Ann"; "Bob"] 5%Z))
    as [[m g'] E]; [vm_compute; reflexivity|].
  exists m, g'. split; [exact E|].
  exact (gen_derangement_two_is_swap lcg 8 "Ann" "Bob" 5%Z m g' Hne E).
Defined.

(** C2.  Seeding makes generation deterministic: two runs that seed the
    generator with the same integer and then call [gen_derangement] on
    the same list return the same mapping (and leave the generator in
    the same state), whatever state the generator was in before the
    seeding and however many iterations each run was allowed. *)
Theorem seeded_generation_deterministic (R : PRNG) (a : Z) names
    fuel1 fuel2 (g1 g2 : rng R) m1 m2 h1 h2 :
  gen_derangement R fuel1 names (Random.seed R a g1) = Returned (m1, h1) →
  gen_derangement R fuel2 names (Random.seed R a g2) = Returned (m2, h2) →
  m1 = m2 ∧ h1 = h2.
Proof.
  unfold gen_derangement, Random.seed. intros H1 H2.
  apply (DerangeFacts.shuffle_and_check_mono R _ (fuel1 `max` fuel2)) in H1;
    [|lia].
  apply (DerangeFacts.shuffle_and_check_mono R _ (fuel1 `max` fuel2)) in H2;
    [|lia].
  rewrite H1 in H2. by simplify_eq.
Qed.

Lemma seeded_generation_deterministic_witness :
  let names := ["Ann"; "Bob"; "Cy"] in
  ∃ m1 m2 h1 h2,
    gen_derangement lcg 5 names (Random.seed lcg 7 11%Z) = Returned (m1, h1)
    ∧ gen_derangement lcg 9 names (Random.seed lcg 7 99%Z) = Returned (m2, h2)
    ∧ m1 = m2 ∧ h1 = h2.
Proof.
  intros names.
  destruct (returned_inv (gen_derangement lcg 5 names (Random.seed lcg 7 11%Z)))
    as [[m1 h1] E1]; [vm_compute; reflexivity|].
  destruct (returned_inv (gen_derangement lcg 9 names (Random.seed lcg 7 99%Z)))
    as [[m2 h2] E2]; [vm_compute; reflexivity|].
  exists m1, m2, h1, h2. split; [exact E1|]. split; [exact E2|].
  exact (seeded_generation_deterministic lcg 7 names 5 9 11%Z 99%Z
           m1 m2 h1 h2 E1 E2).
Defined.



End DerangeSpec.

(** ** The temporary file *)

Module StoreSpec.
Import Store.

Lemma os_remove_gone path st st' :
  os_remove path st = Returned st' →
  os_path_exists path st' = false ∧ TMP_ASSIGN_PATH st' = TMP_ASSIGN_PATH st
  ∧ undeletable st' = undeletable st.
Proof.
  unfold os_remove. case_bool_decide; [done|].
  destruct (os_path_exists path st); [|done].
  intros [= <-]. split; [|done]. apply bool_decide_eq_false.
  simpl. rewrite lookup_delete_eq. by intros [_ [? ?]].
Qed.

(** What [write_tmp_assign] leaves: the file, and its path in
    [TMP_ASSIGN_PATH]. *)
Lemma write_tmp_assign_created dir stem assignments st st' :
  write_tmp_assign dir stem assignments st = Returned st' →
  ∃ path, TMP_ASSIGN_PATH st' = Some path ∧ path ≠ ""
    ∧ files st' !! path
      = Some {| mode := owner_rw; content := Some assignments |}
    ∧ os_path_exists path st = false.
Proof.
  unfold write_tmp_assign, mkstemp.
  destruct (os_path_exists _ st) eqn:Hex; [done|].
  intros [= <-]. eexists. simpl. split_and!; [done| | |done].
  - unfold String.app. by destruct dir.
  - by rewrite lookup_insert_eq.
Qed.


(** C5, as the code has it.  [exit_cleanup] never raises: not when no
    file was ever created, and not when it is called again after a first
    call, which then changes nothing.  After a call the file recorded in
    [TMP_ASSIGN_PATH] is gone unless the operating system refused to
    remove it; the refusal is swallowed and the file stays. *)
Theorem exit_cleanup_idempotent (st : state) :
  ∃ st1, exit_cleanup st = Returned st1
    ∧ exit_cleanup st1 = Returned st1
    ∧ (TMP_ASSIGN_PATH st = None → st1 = st)
    ∧ (∀ path, TMP_ASSIGN_PATH st = Some path → path ∉ undeletable st →
         os_path_exists path st1 = false).
Proof.
  unfold exit_cleanup.
  destruct (TMP_ASSIGN_PATH st) as [path|] eqn:Hp; [|exists st; by rewrite Hp].
  destruct (truthy (Some path) && os_path_exists path st) eqn:Hc.
  - apply andb_true_iff in Hc as [Ht Hex].
    destruct (os_remove path st) as [st'| |] eqn:Hrm.
    + destruct (os_remove_gone _ _ _ Hrm) as (Hgone & Htmp & Hund).
      exists st'. rewrite Htmp, Hp, Hgone, andb_false_r.
      split_and!; [done..|]. by intros ? [= <-].
    + exists st. rewrite Hp, Ht, Hex, Hrm. split_and!; [done..|].
      intros ? [= <-] Hund. unfold os_remove in Hrm.
      by rewrite Hex, bool_decide_eq_false_2 in Hrm.
    + unfold os_remove in Hrm. rewrite Hex in Hrm.
      by destruct (bool_decide (path ∈ undeletable st)).
  - exists st. rewrite Hp, Hc. split_and!; [done..|].
    intros ? [= <-] _. apply andb_false_iff in Hc as [Hc|Hc]; [|done].
    apply bool_decide_eq_false in Hc. apply dec_stable in Hc as ->.
    apply bool_decide_eq_false. by intros [? _].
Qed.

Lemma exit_cleanup_idempotent_witness :
  let asg : gmap string string := {["Ann" := "Bob"; "Bob" := "Ann"]} in
  let st0 := {| files := ∅; undeletable := ∅; TMP_ASSIGN_PATH := None |} in
  ∃ st path,
    write_tmp_assign "/tmp/" "k3x9_q0z" asg st0 = Returned st
    ∧ TMP_ASSIGN_PATH st = Some path ∧ (path ∉ undeletable st)
    ∧ os_path_exists path st = true
    ∧ ∃ st1, exit_cleanup st = Returned st1
        ∧ exit_cleanup st1 = Returned st1
        ∧ (TMP_ASSIGN_PATH st = None → st1 = st)
        ∧ (∀ path, TMP_ASSIGN_PATH st = Some path → path ∉ undeletable st →
             os_path_exists path st1 = false).
Proof.
  intros asg st0. eexists _, _. split; [reflexivity|].
  split; [reflexivity|]. split; [apply not_elem_of_empty|].
  split; [vm_compute; reflexivity|].
  apply exit_cleanup_idempotent.
Defined.

(** C5, as stated, fails: when the operating system refuses the removal,
    [exit_cleanup] returns without an error and the file is still at the
    recorded path. *)
Lemma exit_cleanup_can_leave_the_file :
  let path := "/tmp/secret_santa_k3x9_q0z.json" in
  let st := {| files := {[path := {| mode := owner_rw; content := Some ∅ |}]};
               undeletable := {[path]};
               TMP_ASSIGN_PATH := Some path |} in
  exit_cleanup st = Returned st ∧ os_path_exists path st = true.
Proof. split; vm_compute; reflexivity. Qed.
End StoreSpec.

(** ** Case folding and digits *)

Module TextFacts.
Import Text.


Lemma digit_lower_char c : is_digit c = true → lower_char c = c.
Proof. destruct c as [[] [] [] [] [] [] [] []]; vm_compute; congruence. Qed.

Lemma all_digits_lower s : all_digits s = true → lower s = s.
Proof.
  induction s as [|c s IH]; [done|]. simpl.
  intros [Hc Hs]%andb_true_iff. by rewrite digit_lower_char, IH.
Qed.


Lemma isdigit_all_digits s : isdigit s = true → all_digits s = true.
Proof. by destruct s. Qed.



Lemma append_inj_r (s1 s2 t : string) : s1 +:+ t = s2 +:+ t → s1 = s2.
Proof.
  assert (∀ s u : string, String.length (s +:+ u)
                          = String.length s + String.length u) as Hlen.
  { intros s u. induction s as [|c s IH]; [done|].
    change (String c s +:+ u) with (String c (s +:+ u)).
    simpl. by rewrite IH. }
  revert s2. induction s1 as [|c1 s1 IH]; intros [|c2 s2] Heq.
  - done.
  - pose proof (f_equal String.length Heq) as HL.
    rewrite !Hlen in HL. simpl in HL. lia.
  - pose proof (f_equal String.length Heq) as HL.
    rewrite !Hlen in HL. simpl in HL. lia.
  - change (String c1 (s1 +:+ t) = String c2 (s2 +:+ t)) in Heq.
    injection Heq as -> Heq. f_equal. by apply IH.
Qed.
End TextFacts.

(** ** The reveal loop *)

Module SessionFacts.
Import Text Session.

(** *** The lookup table *)

Lemma build_lookup_snoc names n :
  build_lookup (names ++ [n])
  = <[lower n := default [] (build_lookup names !! lower n) ++ [n]]>
      (build_lookup names).
Proof. unfold build_lookup. by rewrite foldl_app. Qed.

(** Under a key stand the names that fold to it, in the order entered. *)
Lemma build_lookup_lookup names key :
  build_lookup names !! key
  = match filter (λ n, lower n = key) names with
    | [] => None
    | cs => Some cs
    end.
Proof.
  induction names as [|n names IH] using rev_ind; [done|].
  rewrite build_lookup_snoc, filter_app.
  destruct (decide (lower n = key)) as [<-|Hne].
  - rewrite lookup_insert_eq, IH, filter_cons_True by done.
    by destruct (filter _ names).
  - rewrite lookup_insert_ne, IH, filter_cons_False, app_nil_r by done. done.
Qed.

Lemma build_lookup_Some names key cs :
  build_lookup names !! key = Some cs →
  cs = filter (λ n, lower n = key) names ∧ cs ≠ [].
Proof.
  rewrite build_lookup_lookup.
  destruct (filter _ names) eqn:E; [done|]. by intros [= <-].
Qed.

Lemma build_lookup_elem names key cs c :
  build_lookup names !! key = Some cs → c ∈ cs → lower c = key ∧ c ∈ names.
Proof.
  intros [-> _]%build_lookup_Some [? ?]%list_elem_of_filter. done.
Qed.

(** *** What a step shows *)

Local Ltac plain :=
  split; intros ? Heq; vm_compute in Heq; discriminate Heq.

Lemma quiet_nil : quiet [].
Proof. intros e Hin. by apply elem_of_nil in Hin. Qed.

Lemma quiet_cons e evs :
  (∀ who, e ≠ Print (msg_header who)) → (∀ r, e ≠ Print (msg_gift r)) →
  quiet evs → quiet (e :: evs).
Proof. intros H1 H2 Hq e' [->|Hin]%elem_of_cons; [done|by apply Hq]. Qed.

Lemma quiet_app evs1 evs2 : quiet evs1 → quiet evs2 → quiet (evs1 ++ evs2).
Proof. intros H1 H2 e [?|?]%elem_of_app; auto. Qed.

Local Ltac quiet_list :=
  repeat (apply quiet_cons; [intros ? Heq; vm_compute in Heq; discriminate Heq..|]);
  try apply quiet_nil.

Lemma quiet_list_candidates cs : quiet (list_candidates cs).
Proof.
  intros e Hin. unfold list_candidates in Hin.
  apply list_elem_of_lookup in Hin as [i Hi].
  rewrite list_lookup_imap in Hi.
  destruct (cs !! i) as [c|]; simplify_eq/=. plain.
Qed.

Lemma quiet_wait_then_clear needs_enter timeout_sec :
  quiet (wait_then_clear needs_enter timeout_sec).2.
Proof.
  unfold wait_then_clear. repeat case_match; simpl; quiet_list.
Qed.

Lemma wait_then_clear_ctl needs_enter timeout_sec :
  (wait_then_clear needs_enter timeout_sec).1 = AwaitingQuery
  ∨ (wait_then_clear needs_enter timeout_sec).1 = AwaitingEnter.
Proof. unfold wait_then_clear. repeat case_match; simpl; auto. Qed.

Lemma Print_inj a b : Print a = Print b → a = b.
Proof. congruence. Qed.

Lemma msg_header_inj who1 who2 : msg_header who1 = msg_header who2 → who1 = who2.
Proof.
  unfold msg_header. intros H%(inj (String.app _)).
  by apply TextFacts.append_inj_r in H.
Qed.

Lemma msg_gift_inj r1 r2 : msg_gift r1 = msg_gift r2 → r1 = r2.
Proof. unfold msg_gift. by intros H%(inj (String.app _)). Qed.

Lemma msg_header_not_gift who r : msg_header who ≠ msg_gift r.
Proof. intros Heq. vm_compute in Heq. discriminate Heq. Qed.

(** *** [reveal] *)

Section Loop.
Context (cfg : config) (assignments : gmap string string)
        (lc_to_names : gmap string (list string)).

Implicit Types (who p r : string) (v : gset string) (s : session).

Local Abbreviation reveal := (Session.reveal cfg assignments).
Local Abbreviation step := (Session.step cfg assignments lc_to_names).
Local Abbreviation steps := (Session.steps cfg assignments lc_to_names).
Local Abbreviation run := (Session.run cfg assignments lc_to_names).

(** A viewer on the ledger is turned away in one-shot mode. *)
Lemma reveal_again who v :
  one_shot_reveal cfg = true → who ∈ v →
  reveal who v
  = ({| ctl := AwaitingQuery; viewed := v |}, [Print msg_already_viewed]).
Proof.
  intros Hone Hin. unfold Session.reveal.
  by rewrite Hone, bool_decide_eq_true_2.
Qed.

(** Anyone else is shown the recipient and put on the ledger. *)
Lemma reveal_shown who v r :
  one_shot_reveal cfg = false ∨ who ∉ v →
  assignments !! who = Some r →
  reveal who v
  = (let w := wait_then_clear (reveal_needs_enter cfg)
                              (Some (reveal_timeout_sec cfg)) in
     ({| ctl := w.1; viewed := {[who]} ∪ v |},
      [Clear; Print (msg_header who); Print (msg_gift r)] ++ w.2)).
Proof.
  intros Hfirst Hr. unfold Session.reveal. rewrite Hr.
  destruct (wait_then_clear _ _) as [c evs]; simpl.
  destruct Hfirst as [->|Hnot]; [done|].
  by rewrite bool_decide_eq_false_2, andb_false_r.
Qed.

Lemma reveal_unknown who v :
  one_shot_reveal cfg = false ∨ who ∉ v →
  assignments !! who = None →
  reveal who v = ({| ctl := Crashed KeyError; viewed := v |}, []).
Proof.
  intros Hfirst Hr. unfold Session.reveal. rewrite Hr.
  destruct Hfirst as [->|Hnot]; [done|].
  by rewrite bool_decide_eq_false_2, andb_false_r.
Qed.

Lemma reveal_cases who v :
  (one_shot_reveal cfg = true ∧ who ∈ v)
  ∨ (one_shot_reveal cfg = false ∨ who ∉ v).
Proof.
  destruct (one_shot_reveal cfg); [|by auto].
  destruct (decide (who ∈ v)); auto.
Qed.

(** The ledger after [reveal]: the viewer may have been added, no one
    else, and no one is removed. *)
Lemma reveal_viewed who v :
  viewed (reveal who v).1 = v ∨ viewed (reveal who v).1 = {[who]} ∪ v.
Proof.
  destruct (reveal_cases who v) as [[Hone Hon]|Hfirst].
  - left. by rewrite reveal_again.
  - destruct (assignments !! who) as [r|] eqn:Hr.
    + right. by rewrite (reveal_shown _ _ r).
    + left. by rewrite reveal_unknown.
Qed.

(** A name enters the ledger in [reveal] only with its recipient on the
    screen. *)
Lemma reveal_recorded who v p :
  p ∈ viewed (reveal who v).1 → p ∉ v →
  p = who ∧ ∃ r, assignments !! who = Some r
    ∧ Print (msg_header who) ∈ (reveal who v).2
    ∧ Print (msg_gift r) ∈ (reveal who v).2.
Proof.
  destruct (reveal_cases who v) as [[Hone Hon]|Hfirst].
  - by rewrite reveal_again.
  - destruct (assignments !! who) as [r|] eqn:Hr.
    + rewrite (reveal_shown _ _ r) by done. simpl.
      intros [->%elem_of_singleton|Hp]%elem_of_union Hnp; [|done].
      split; [done|]. exists r. rewrite !elem_of_cons.
      split_and!; [done|by right; left|by right; right; left].
    + by rewrite reveal_unknown.
Qed.

(** A header or a recipient on the screen is the viewer's own, and the
    viewer is on the ledger. *)
Lemma reveal_events who v e :
  e ∈ (reveal who v).2 →
  ((∀ p, e ≠ Print (msg_header p)) ∧ (∀ r, e ≠ Print (msg_gift r)))
  ∨ (who ∈ viewed (reveal who v).1
     ∧ (e = Print (msg_header who)
        ∨ ∃ r, assignments !! who = Some r ∧ e = Print (msg_gift r))).
Proof.
  destruct (reveal_cases who v) as [[Hone Hon]|Hfirst].
  - rewrite reveal_again by done. simpl.
    intros ->%list_elem_of_singleton. left. plain.
  - destruct (assignments !! who) as [r|] eqn:Hr.
    + rewrite (reveal_shown _ _ r) by done. simpl.
      rewrite !elem_of_cons.
      intros [->|[->|[->|Hin]]].
      * left. plain.
      * right. split; [apply elem_of_union_l; by apply elem_of_singleton|].
        by left.
      * right. split; [apply elem_of_union_l; by apply elem_of_singleton|].
        right. by exists r.
      * left. by apply (quiet_wait_then_clear _ _ e Hin).
    + rewrite reveal_unknown by done. by intros ?%elem_of_nil.
Qed.

Lemma reveal_ctl who v :
  match ctl (reveal who v).1 with
  | Disambiguating _ | Terminated => False
  | _ => True
  end.
Proof.
  destruct (reveal_cases who v) as [[Hone Hon]|Hfirst].
  - by rewrite reveal_again.
  - destruct (assignments !! who) as [r|] eqn:Hr.
    + rewrite (reveal_shown _ _ r) by done. simpl.
      by destruct (wait_then_clear_ctl (reveal_needs_enter cfg)
                     (Some (reveal_timeout_sec cfg))) as [-> | ->].
    + by rewrite reveal_unknown.
Qed.

(** *** One line of input *)

Local Ltac same :=
  left; split_and!;
    [ done
    | first [apply quiet_nil | quiet_list]
    | simpl; first [done | congruence | intros ? [= <-]; auto]
    | simpl; first [done | congruence] ].

(** A step either shows nothing of an assignment and leaves the ledger
    alone, or it is [reveal] for a name the line resolved to: at the main
    prompt a name filed under the folded query, which is not a word for
    leaving; at the selection prompt one of the candidates. *)
Lemma step_shape s line :
  (viewed (step s line).1 = viewed s
   ∧ quiet (step s line).2
   ∧ (∀ cs, ctl (step s line).1 = Disambiguating cs →
        ctl s = Disambiguating cs
        ∨ (ctl s = AwaitingQuery
           ∧ (lower (strip line) ∉ ["exit"; "quit"])
           ∧ lc_to_names !! lower (strip line) = Some cs))
   ∧ (∀ e, ctl (step s line).1 = Crashed e → ctl s = Crashed e))
  ∨ (∃ prompt who,
       match ctl s with
       | AwaitingQuery =>
           (lower (strip line) ∉ ["exit"; "quit"])
           ∧ ∃ cs, lc_to_names !! lower (strip line) = Some cs ∧ who ∈ cs
       | Disambiguating cs => who ∈ cs
       | _ => False
       end
       ∧ step s line
         = ((reveal who (viewed s)).1,
            Input prompt :: (reveal who (viewed s)).2)).
Proof.
  unfold Session.step. destruct (ctl s) as [|cs| | |x] eqn:Hctl.
  - unfold on_query.
    case_bool_decide as Hempty; [same|].
    case_bool_decide as Hexit; [same|].
    destruct (lc_to_names !! lower (strip line)) as [cs|] eqn:Hcs; [|same].
    case_bool_decide as Hexact.
    { right. exists prompt_query, (strip line). split; [by eauto|].
      by destruct (Session.reveal _ _ _ _). }
    destruct cs as [|only [|c2 cs]].
    + same.
    + right. exists prompt_query, only.
      split; [split; [done|]; exists [only]; split; [done|by left]|].
      by destruct (Session.reveal _ _ _ _).
    + left. split_and!; [done| | |done].
      * simpl. do 2 (apply quiet_cons; [intros ? Heq; vm_compute in Heq;
                                         discriminate Heq..|]).
        apply quiet_list_candidates.
      * simpl. intros ? [= <-]. auto.
  - unfold on_selection.
    case_bool_decide as Hempty; [same|].
    case_bool_decide as Hcancel; [same|].
    destruct (isdigit (strip line)).
    + destruct ((1 <=? int (strip line)) && (int (strip line) <=? length cs))
        eqn:Hidx; [|same].
      apply andb_true_iff in Hidx as [Hlo%Nat.leb_le Hhi%Nat.leb_le].
      destruct (lookup_lt_is_Some_2 cs (int (strip line) - 1)) as [who Hwho];
        [lia|]. rewrite Hwho.
      right. exists prompt_selection, who.
      split; [by eapply list_elem_of_lookup_2|].
      by destruct (Session.reveal _ _ _ _).
    + case_bool_decide as Hexact; [|same].
      right. exists prompt_selection, (strip line). split; [done|].
      by destruct (Session.reveal _ _ _ _).
  - same.
  - same.
  - same.
Qed.

(** The ledger only grows. *)
Lemma step_viewed_mono s line : viewed s ⊆ viewed (step s line).1.
Proof.
  destruct (step_shape s line) as [(-> & _)|(pr & who & _ & ->)]; [done|].
  simpl. destruct (reveal_viewed who (viewed s)) as [-> | ->]; set_solver.
Qed.

(** A name is put on the ledger only with its recipient on the screen. *)
Lemma step_recorded s line p :
  p ∈ viewed (step s line).1 → p ∉ viewed s →
  ∃ r, assignments !! p = Some r
    ∧ Print (msg_header p) ∈ (step s line).2
    ∧ Print (msg_gift r) ∈ (step s line).2.
Proof.
  destruct (step_shape s line) as [(-> & _)|(pr & who & _ & ->)]; [done|].
  simpl. intros Hin Hnot.
  destruct (reveal_recorded who (viewed s) p Hin Hnot)
    as (-> & r & Hr & Hh & Hg).
  exists r. rewrite !elem_of_cons. auto.
Qed.

(** A header on the screen names someone who is on the ledger. *)
Lemma step_displayed s line p :
  Print (msg_header p) ∈ (step s line).2 → p ∈ viewed (step s line).1.
Proof.
  destruct (step_shape s line) as [(_ & Hq & _)|(pr & who & _ & ->)].
  - intros [Hno _]%Hq. by destruct (Hno p).
  - simpl. intros [?|Hin]%elem_of_cons; [done|].
    apply reveal_events in Hin as [[Hno _]|[Hv [Heq|(r & _ & Heq)]]].
    + by destruct (Hno p).
    + by apply Print_inj, msg_header_inj in Heq as ->.
    + by apply Print_inj, msg_header_not_gift in Heq.
Qed.

(** In one-shot mode the header of someone on the ledger is not shown
    again. *)
Lemma step_not_again s line who :
  one_shot_reveal cfg = true → who ∈ viewed s →
  Print (msg_header who) ∉ (step s line).2.
Proof.
  intros Hone Hin.
  destruct (step_shape s line) as [(_ & Hq & _)|(pr & who' & _ & ->)].
  - intros [Hno _]%Hq. by destruct (Hno who).
  - simpl. intros [?|Hev]%elem_of_cons; [done|].
    pose proof Hev as Hev'.
    apply reveal_events in Hev as [[Hno _]|[Hv [Heq|(r & _ & Heq)]]].
    + by destruct (Hno who).
    + apply Print_inj, msg_header_inj in Heq as ->.
      rewrite reveal_again in Hev' by done.
      apply list_elem_of_singleton in Hev'.
      vm_compute in Hev'. discriminate Hev'.
    + by apply Print_inj, msg_header_not_gift in Heq.
Qed.

(** *** Whole sessions *)

Lemma steps_not_again s stdin who :
  one_shot_reveal cfg = true → who ∈ viewed s →
  Print (msg_header who) ∉ (steps s stdin).2.
Proof.
  intros Hone. revert s.
  induction stdin as [|line rest IH]; intros s Hin; simpl.
  { by intros ?%elem_of_nil. }
  pose proof (step_not_again s line who Hone Hin) as H1.
  pose proof (step_viewed_mono s line) as Hmono.
  destruct (step s line) as [s1 evs1]. specialize (IH s1 (Hmono _ Hin)).
  destruct (steps s1 rest) as [s2 evs2]. simpl in *.
  by intros [?|?]%elem_of_app.
Qed.

Lemma steps_viewed_mono s stdin : viewed s ⊆ viewed (steps s stdin).1.
Proof.
  revert s. induction stdin as [|line rest IH]; intros s; simpl; [done|].
  pose proof (step_viewed_mono s line) as H1.
  destruct (step s line) as [s1 evs1]. specialize (IH s1).
  destruct (steps s1 rest) as [s2 evs2]. simpl in *. set_solver.
Qed.

Lemma steps_recorded s stdin p :
  p ∈ viewed (steps s stdin).1 → p ∉ viewed s →
  ∃ r, assignments !! p = Some r
    ∧ Print (msg_header p) ∈ (steps s stdin).2
    ∧ Print (msg_gift r) ∈ (steps s stdin).2.
Proof.
  revert s. induction stdin as [|line rest IH]; intros s; simpl; [done|].
  pose proof (step_recorded s line p) as H1.
  destruct (step s line) as [s1 evs1]. specialize (IH s1).
  destruct (steps s1 rest) as [s2 evs2]. simpl in *.
  intros Hin Hnot. destruct (decide (p ∈ viewed s1)) as [Hp1|Hp1].
  - destruct (H1 Hp1 Hnot) as (r & ? & ? & ?). exists r.
    rewrite !elem_of_app. auto.
  - destruct (IH Hin Hp1) as (r & ? & ? & ?). exists r.
    rewrite !elem_of_app. auto.
Qed.

Lemma steps_displayed s stdin p :
  Print (msg_header p) ∈ (steps s stdin).2 → p ∈ viewed (steps s stdin).1.
Proof.
  revert s. induction stdin as [|line rest IH]; intros s; simpl.
  { by intros ?%elem_of_nil. }
  pose proof (step_displayed s line p) as H1.
  destruct (step s line) as [s1 evs1]. specialize (IH s1).
  pose proof (steps_viewed_mono s1 rest) as Hmono.
  destruct (steps s1 rest) as [s2 evs2]. simpl in *.
  intros [Hin|Hin]%elem_of_app; [|auto]. apply Hmono. auto.
Qed.

Lemma eof_quiet s : viewed (eof s).1 = viewed s ∧ quiet (eof s).2.
Proof.
  unfold eof. destruct (ctl s); simpl; (split; [done|]);
    try apply quiet_nil; quiet_list.
Qed.

Lemma run_viewed s stdin : viewed (run s stdin).1 = viewed (steps s stdin).1.
Proof.
  unfold Session.run. destruct (steps s stdin) as [s1 evs1].
  pose proof (eof_quiet s1) as [Hv _].
  by destruct (eof s1) as [s2 evs2].
Qed.

Lemma run_displayed s stdin p :
  Print (msg_header p) ∈ (run s stdin).2 → p ∈ viewed (run s stdin).1.
Proof.
  rewrite run_viewed. pose proof (steps_displayed s stdin p) as Hd.
  unfold Session.run. destruct (steps s stdin) as [s1 evs1].
  pose proof (eof_quiet s1) as [_ Hq].
  destruct (eof s1) as [s2 evs2]. simpl in *.
  intros [Hin|Hin]%elem_of_app; [auto|].
  apply Hq in Hin as [Hno _]. by destruct (Hno p).
Qed.
End Loop.
End SessionFacts.

(** ** Leaving comes before looking up *)

Module LeavingFacts.
Import Text Session SessionFacts.

Section Loop.
Context (cfg : config) (assignments : gmap string string)
        (names : list string).
Implicit Types (who p : string) (v : gset string) (s : session).

Local Abbreviation lc_to_names := (build_lookup names).
Local Abbreviation step := (Session.step cfg assignments lc_to_names).
Local Abbreviation steps := (Session.steps cfg assignments lc_to_names).
Local Abbreviation run := (Session.run cfg assignments lc_to_names).

Lemma step_leaving line v :
  lower (strip line) ∈ ["exit"; "quit"] →
  step {| ctl := AwaitingQuery; viewed := v |} line
  = ({| ctl := Terminated; viewed := v |},
     [Input prompt_query; Print msg_exiting]).
Proof.
  intros Hexit. unfold Session.step, on_query. simpl.
  case_bool_decide as Hempty.
  { rewrite Hempty in Hexit. simpl in Hexit.
    by apply elem_of_cons in Hexit
      as [?|[?|?%elem_of_nil]%elem_of_cons]. }
  by rewrite bool_decide_eq_true_2.
Qed.

(** No one on the ledger, and no candidate on offer, bears a name that
    folds to a word for leaving. *)
Lemma step_never_leaver s line :
  (∀ p, p ∈ viewed s → lower p ∉ ["exit"; "quit"]) →
  (∀ cs c, ctl s = Disambiguating cs → c ∈ cs → lower c ∉ ["exit"; "quit"]) →
  (∀ p, p ∈ viewed (step s line).1 → lower p ∉ ["exit"; "quit"])
  ∧ (∀ cs c, ctl (step s line).1 = Disambiguating cs → c ∈ cs →
       lower c ∉ ["exit"; "quit"]).
Proof.
  intros Hv Hc.
  destruct (step_shape cfg assignments lc_to_names s line)
    as [(Hsame & _ & Hcs & _)|(pr & who & Hres & Heq)].
  - split; [by rewrite Hsame|]. intros cs c Hctl Hin.
    destruct (Hcs cs Hctl) as [Hold|(_ & Hno & Hlook)]; [by eapply Hc|].
    by destruct (build_lookup_elem _ _ _ _ Hlook Hin) as [-> _].
  - rewrite Heq. simpl. split.
    + assert (lower who ∉ ["exit"; "quit"]) as Hwho.
      { destruct (ctl s) as [|cs| | |x] eqn:Hctl; try done.
        - destruct Hres as (Hno & cs & Hlook & Hin).
          by destruct (build_lookup_elem _ _ _ _ Hlook Hin) as [-> _].
        - by eapply Hc. }
      intros p.
      destruct (reveal_viewed cfg assignments who (viewed s)) as [-> | ->];
        [by auto|].
      intros [->%elem_of_singleton|Hp]%elem_of_union; auto.
    + intros cs c Hctl.
      pose proof (reveal_ctl cfg assignments who (viewed s)) as Hr.
      by rewrite Hctl in Hr.
Qed.

Lemma steps_never_leaver s stdin :
  (∀ p, p ∈ viewed s → lower p ∉ ["exit"; "quit"]) →
  (∀ cs c, ctl s = Disambiguating cs → c ∈ cs → lower c ∉ ["exit"; "quit"]) →
  ∀ p, p ∈ viewed (steps s stdin).1 → lower p ∉ ["exit"; "quit"].
Proof.
  revert s. induction stdin as [|line rest IH]; intros s Hv Hc; simpl; [done|].
  destruct (step_never_leaver s line Hv Hc) as [Hv1 Hc1].
  destruct (step s line) as [s1 evs1]. specialize (IH s1 Hv1 Hc1).
  by destruct (Session.steps _ _ _ s1 rest) as [s2 evs2].
Qed.



Lemma run_never_leaver stdin p :
  p ∈ viewed (run start stdin).1 → lower p ∉ ["exit"; "quit"].
Proof.
  rewrite run_viewed. by apply steps_never_leaver.
Qed.
End Loop.
End LeavingFacts.

(** ** The session: the claims *)

Module SessionSpec.
Import Text Session SessionFacts.

(** C10.  A line that folds to [exit] or [quit] ends the session at the
    main prompt before any name is looked up, whoever takes part; so a
    participant whose name folds to one of these words is never put on
    the ledger and never sees a header with that name, whatever is
    typed. *)
Theorem leaving_precedes_lookup (cfg : config)
    (assignments : gmap string string) (names : list string)
    (line : string) (v : gset string) (who : string) (stdin : list string) :
  lower (strip line) ∈ ["exit"; "quit"] →
  lower who ∈ ["exit"; "quit"] →
  step cfg assignments (build_lookup names)
       {| ctl := AwaitingQuery; viewed := v |} line
  = ({| ctl := Terminated; viewed := v |},
     [Input prompt_query; Print msg_exiting])
  ∧ (who ∉ viewed (run cfg assignments (build_lookup names) start stdin).1)
  ∧ Print (msg_header who)
    ∉ (run cfg assignments (build_lookup names) start stdin).2.
Proof.
  intros Hline Hwho. split; [by apply LeavingFacts.step_leaving|].
  assert (who ∉ viewed (run cfg assignments (build_lookup names) start stdin).1)
    as Hnot.
  { intros Hin. by apply LeavingFacts.run_never_leaver in Hin. }
  split; [done|]. intros Hin. by apply run_displayed in Hin.
Qed.

Lemma leaving_precedes_lookup_witness :
  let cfg := configure {| allow_repeat := false; timeout := None;
                          no_enter := false; seed := None |} in
  let names := ["Quit"; "Bob"; "exit"] in
  let assignments : gmap string string :=
    {["Quit" := "Bob"; "Bob" := "exit"; "exit" := "Quit"]} in
  let stdin := ["bob"; ""; "quit"; "Quit"] in
  lower (strip " Quit ") ∈ ["exit"; "quit"]
  ∧ lower "Quit" ∈ ["exit"; "quit"]
  ∧ step cfg assignments (build_lookup names)
         {| ctl := AwaitingQuery; viewed := ∅ |} " Quit "
    = ({| ctl := Terminated; viewed := ∅ |},
       [Input prompt_query; Print msg_exiting])
  ∧ ("Quit" ∉ viewed (run cfg assignments (build_lookup names) start stdin).1)
  ∧ Print (msg_header "Quit")
    ∉ (run cfg assignments (build_lookup names) start stdin).2.
Proof.
  intros cfg names assignments stdin.
  assert (lower (strip " Quit ") ∈ ["exit"; "quit"]) as H1.
  { vm_compute. apply list_elem_of_further, list_elem_of_here. }
  assert (lower "Quit" ∈ ["exit"; "quit"]) as H2.
  { vm_compute. apply list_elem_of_further, list_elem_of_here. }
  split; [exact H1|]. split; [exact H2|].
  exact (leaving_precedes_lookup cfg assignments names " Quit " ∅ "Quit"
           stdin H1 H2).
Defined.



Lemma one_shot_configure a : one_shot_reveal (configure a) = negb (allow_repeat a).
Proof. unfold configure. by repeat case_match. Qed.

(** C3.  Someone whom [reveal] has not turned away is shown the
    recipient and put on the ledger, and a name is put on the ledger only
    in a step that shows its header and recipient.  In one-shot mode,
    once [who] is on the ledger, [reveal] answers with the already-viewed
    notice alone, leaves the ledger as it is and goes back to the main
    prompt, and for the rest of the session [who] stays on the ledger and
    the header of [who] is not shown again.  With [--allow-repeat],
    [reveal] shows the same recipient each time. *)
Theorem one_shot_enforcement (a : args) (assignments : gmap string string)
    (lc_to_names : gmap string (list string)) (who r : string) :
  assignments !! who = Some r →
  let cfg := configure a in
  (∀ v : gset string, allow_repeat a = true ∨ who ∉ v →
     viewed (reveal cfg assignments who v).1 = {[who]} ∪ v
     ∧ Print (msg_header who) ∈ (reveal cfg assignments who v).2
     ∧ Print (msg_gift r) ∈ (reveal cfg assignments who v).2)
  ∧ (∀ s stdin,
       who ∈ viewed (steps cfg assignments lc_to_names s stdin).1 →
       who ∉ viewed s →
       Print (msg_header who) ∈ (steps cfg assignments lc_to_names s stdin).2
       ∧ Print (msg_gift r) ∈ (steps cfg assignments lc_to_names s stdin).2)
  ∧ (allow_repeat a = false → ∀ v : gset string, who ∈ v →
       reveal cfg assignments who v
       = ({| ctl := AwaitingQuery; viewed := v |}, [Print msg_already_viewed])
       ∧ ∀ r', Print (msg_gift r') ∉ (reveal cfg assignments who v).2)
  ∧ (allow_repeat a = false → ∀ s stdin, who ∈ viewed s →
       who ∈ viewed (steps cfg assignments lc_to_names s stdin).1
       ∧ Print (msg_header who)
         ∉ (steps cfg assignments lc_to_names s stdin).2)
  ∧ (allow_repeat a = true → ∀ (v : gset string) r',
       Print (msg_gift r') ∈ (reveal cfg assignments who v).2 → r' = r).
Proof.
  intros Hr cfg.
  assert (one_shot_reveal cfg = negb (allow_repeat a)) as Hone
    by apply one_shot_configure.
  split_and!.
  - intros v Hfirst.
    rewrite (reveal_shown cfg assignments who v r); [|by destruct Hfirst as [Hrep|Hnot];
      [left; rewrite Hone, Hrep|right]|done].
    simpl. rewrite !elem_of_cons.
    split_and!; [done|by right; left|by right; right; left].
  - intros s stdin Hin Hnot.
    destruct (steps_recorded cfg assignments lc_to_names s stdin who Hin Hnot)
      as (r' & Hr' & Hh & Hg).
    by simplify_eq.
  - intros Hrep v Hin.
    rewrite reveal_again by (by rewrite ?Hone, ?Hrep).
    split; [done|]. simpl. intros r' Hin'%list_elem_of_singleton.
    vm_compute in Hin'. discriminate Hin'.
  - intros Hrep s stdin Hin. split.
    + by apply (steps_viewed_mono cfg assignments lc_to_names s stdin).
    + apply steps_not_again; [by rewrite Hone, Hrep|done].
  - intros Hrep v r'.
    rewrite (reveal_shown cfg assignments who v r);
      [|left; by rewrite Hone, Hrep|done].
    simpl. rewrite !elem_of_cons.
    intros [Hc|[Hh|[Hg|Hw]]].
    + done.
    + apply Print_inj in Hh. symmetry in Hh.
      by apply msg_header_not_gift in Hh.
    + by apply Print_inj, msg_gift_inj in Hg.
    + apply quiet_wait_then_clear in Hw as [_ Hno]. by destruct (Hno r').
Qed.

Lemma one_shot_enforcement_witness :
  let a := {| allow_repeat := false; timeout := None;
              no_enter := false; seed := None |} in
  let cfg := configure a in
  let assignments : gmap string string :=
    {["Ann" := "Bob"; "Bob" := "Cy"; "Cy" := "Ann"]} in
  let lc_to_names := build_lookup ["Ann"; "Bob"; "Cy"] in
  assignments !! "Bob" = Some "Cy"
  ∧ (steps cfg assignments lc_to_names start ["bob"; ""; "Bob"]).2
    = [Input prompt_query; Clear; Print (msg_header "Bob");
       Print (msg_gift "Cy"); Input prompt_enter; Clear;
       Input prompt_query; Print msg_already_viewed]
  ∧ (∀ v : gset string, allow_repeat a = true ∨ "Bob" ∉ v →
       viewed (reveal cfg assignments "Bob" v).1 = {["Bob"]} ∪ v
       ∧ Print (msg_header "Bob") ∈ (reveal cfg assignments "Bob" v).2
       ∧ Print (msg_gift "Cy") ∈ (reveal cfg assignments "Bob" v).2)
  ∧ (∀ s stdin,
       "Bob" ∈ viewed (steps cfg assignments lc_to_names s stdin).1 →
       "Bob" ∉ viewed s →
       Print (msg_header "Bob") ∈ (steps cfg assignments lc_to_names s stdin).2
       ∧ Print (msg_gift "Cy") ∈ (steps cfg assignments lc_to_names s stdin).2)
  ∧ (allow_repeat a = false → ∀ v : gset string, "Bob" ∈ v →
       reveal cfg assignments "Bob" v
       = ({| ctl := AwaitingQuery; viewed := v |}, [Print msg_already_viewed])
       ∧ ∀ r', Print (msg_gift r') ∉ (reveal cfg assignments "Bob" v).2)
  ∧ (allow_repeat a = false → ∀ s stdin, "Bob" ∈ viewed s →
       "Bob" ∈ viewed (steps cfg assignments lc_to_names s stdin).1
       ∧ Print (msg_header "Bob")
         ∉ (steps cfg assignments lc_to_names s stdin).2)
  ∧ (allow_repeat a = true → ∀ (v : gset string) r',
       Print (msg_gift r') ∈ (reveal cfg assignments "Bob" v).2 → r' = "Cy").
Proof.
  intros a cfg assignments lc_to_names.
  split; [vm_compute; reflexivity|]. split; [vm_compute; reflexivity|].
  apply (one_shot_enforcement a assignments lc_to_names "Bob" "Cy").
  vm_compute. reflexivity.
Defined.



Lemma cancel_not_digits s :
  isdigit s = true → lower s ∉ ["cancel"; "abort"; "back"].
Proof.
  intros Hd. rewrite (TextFacts.all_digits_lower s)
    by by apply TextFacts.isdigit_all_digits.
  intros Hin. repeat (apply elem_of_cons in Hin as [->|Hin]; [done|]).
  by apply elem_of_nil in Hin.
Qed.



End SessionSpec.

(** ** Starting up *)

Module MainSpec.
Import Text Session Main.



(** With a seed on the command line, nothing the program does depends on
    the state the generator had before. *)
Lemma main_seeded (R : PRNG) fuel a dir stem stdin (g1 g2 : rng R) st n :
  seed a = Some n →
  main R fuel a dir stem stdin g1 st = main R fuel a dir stem stdin g2 st.
Proof. intros Hseed. unfold main. by rewrite Hseed. Qed.


(** C6.  When the line of names holds fewer than two different names the
    program prints the complaint and exits with status 1.  It has then
    drawn nothing from the generator, which is as the seeding (if any)
    left it, whatever budget the loop of [gen_derangement] would have
    had; it has created no file and [TMP_ASSIGN_PATH] is unset. *)
Theorem insufficient_participants (R : PRNG) (fuel : nat) (a : args)
    (dir stem line : string) (rest : list string) (g : rng R)
    (st : Store.state) :
  length (parse_names line) < 2 →
  let r := main R fuel a dir stem (line :: rest) g st in
  status R r = Raised (SystemExit 1)
  ∧ exit_code R r = Some 1%Z
  ∧ output R r
    = [Print "Secret Santa Trustee";
       Print "Enter all participant names, comma-separated (at least 2):";
       Input "> ";
       Print "Need at least 2 distinct names. Exiting."]
  ∧ generator R r = match seed a with
                    | Some n => seed_state R n
                    | None => g
                    end
  ∧ Store.files (store R r) = Store.files st
  ∧ Store.TMP_ASSIGN_PATH (store R r) = None.
Proof.
  intros Hfew r. unfold r, main, prompt_names.
  rewrite (proj2 (Nat.ltb_lt _ _) Hfew). simpl.
  split_and!; done.
Qed.

Lemma insufficient_participants_witness :
  let a := {| allow_repeat := false; timeout := None;
              no_enter := false; seed := Some 7%Z |} in
  let st := {| Store.files := ∅; Store.undeletable := ∅;
               Store.TMP_ASSIGN_PATH := None |} in
  let r := main lcg 3 a "/tmp/" "k3x9_q0z" [" Ann, , Ann ,Ann"; "Ann"] 5%Z st in
  length (parse_names " Ann, , Ann ,Ann") < 2
  ∧ status lcg r = Raised (SystemExit 1)
  ∧ exit_code lcg r = Some 1%Z
  ∧ output lcg r
    = [Print "Secret Santa Trustee";
       Print "Enter all participant names, comma-separated (at least 2):";
       Input "> ";
       Print "Need at least 2 distinct names. Exiting."]
  ∧ generator lcg r = 7%Z
  ∧ Store.files (store lcg r) = ∅
  ∧ Store.TMP_ASSIGN_PATH (store lcg r) = None.
Proof.
  intros a st r.
  assert (length (parse_names " Ann, , Ann ,Ann") < 2) as H
    by (vm_compute; lia).
  split; [exact H|].
  exact (insufficient_participants lcg 3 a "/tmp/" "k3x9_q0z"
           " Ann, , Ann ,Ann" ["Ann"] 5%Z st H).
Defined.
End MainSpec.

(** * Further properties of the code *)

(** ** The names [prompt_names] hands on *)

Module NamesSpec.
Import Text Main.

Lemma dedup_app names seen uniq :
  dedup names seen uniq = uniq ++ dedup names seen [].
Proof.
  revert seen uniq. induction names as [|n names IH]; intros seen uniq; simpl.
  { by rewrite app_nil_r. }
  case_bool_decide; [done|].
  rewrite (IH _ (uniq ++ [n])), (IH _ [n]). by rewrite <-app_assoc.
Qed.

Lemma dedup_seen names seen seen' :
  dedup names (seen ∪ seen') []
  = dedup (filter (λ n, n ∉ seen) names) seen' [].
Proof.
  revert seen seen'. induction names as [|n names IH]; intros seen seen';
    simpl; [done|].
  rewrite filter_cons. destruct (decide (n ∈ seen)) as [Hin|Hin].
  - rewrite bool_decide_eq_true_2 by (by apply elem_of_union_l).
    rewrite decide_False by (by intros ?). apply IH.
  - rewrite decide_True by done. simpl.
    destruct (decide (n ∈ seen')) as [Hin'|Hin'].
    + rewrite !bool_decide_eq_true_2 by (done || by apply elem_of_union_r).
      apply IH.
    + rewrite !bool_decide_eq_false_2
        by (done || (rewrite elem_of_union; tauto)).
      rewrite (dedup_app _ _ ([] ++ [n])), (dedup_app _ _ ([] ++ [n])).
      f_equal.
      replace ({[n]} ∪ (seen ∪ seen')) with (seen ∪ ({[n]} ∪ seen')); [apply IH|].
      apply set_eq. intros x. rewrite !elem_of_union. tauto.
Qed.






Lemma filter_all {A} (P : A → Prop) `{!∀ x, Decision (P x)} (l : list A) :
  Forall P l → filter P l = l.
Proof.
  induction 1 as [|x l Hx _ IH]; [done|].
  by rewrite filter_cons_True, IH.
Qed.



(** X2.  Of a name entered several times the first occurrence is kept, in
    its place: the list starts with its first name, followed by what the
    rest yields once that name is taken out; a list without repetitions is
    kept as it is. *)
Theorem dedup_first_occurrence (n : string) (names : list string) :
  dedup (n :: names) ∅ [] = n :: dedup (filter (λ m, m ≠ n) names) ∅ []
  ∧ (NoDup (n :: names) → dedup (n :: names) ∅ [] = n :: names).
Proof.
  assert (∀ n names,
    dedup (n :: names) ∅ [] = n :: dedup (filter (λ m, m ≠ n) names) ∅ [])
    as Hfirst.
  { intros n' names'. simpl.
    rewrite bool_decide_eq_false_2 by apply not_elem_of_empty.
    rewrite dedup_app. simpl. f_equal. rewrite dedup_seen. f_equal.
    apply list_filter_iff. intros m. by rewrite not_elem_of_singleton. }
  split; [apply Hfirst|].
  revert n. induction names as [|m names IH]; intros n Hnd.
  { by rewrite Hfirst. }
  rewrite Hfirst. f_equal.
  apply NoDup_cons in Hnd as [Hn Hnd].
  rewrite filter_all; [by apply IH|].
  apply Forall_forall. intros x Hx ->. done.
Qed.
End NamesSpec.

(** ** What the generator can return *)

Module DrawSpec.
Import Derange.

Lemma in_range_lcg : in_range lcg.
Proof. intros n g Hn. simpl. apply Nat.mod_upper_bound. lia. Qed.

Lemma in_range_tape : in_range tape.
Proof.
  intros n [|d t] Hn; simpl; [done|]. apply Nat.mod_upper_bound. lia.
Qed.

Lemma swap_lookup_fst {A} (x y : list A) i j :
  Random.swap x i j = Some y → y !! i = x !! j.
Proof.
  unfold Random.swap. intros H.
  destruct (x !! j) as [xj|] eqn:Hj; simplify_eq/=.
  destruct (x !! i) as [xi|] eqn:Hi; simplify_eq/=.
  apply lookup_lt_Some in Hi as Hlt.
  destruct (decide (i = j)) as [->|Hne].
  - rewrite list_lookup_insert_eq by (by rewrite length_insert). congruence.
  - rewrite list_lookup_insert_ne by done. by rewrite list_lookup_insert_eq.
Qed.

Lemma swap_take {A} (x y : list A) i j n :
  Random.swap x i j = Some y → i < n → j < n → take n y ≡ₚ take n x.
Proof.
  unfold Random.swap. intros H Hi Hj.
  destruct (x !! j) as [xj|] eqn:Hxj; simplify_eq/=.
  destruct (x !! i) as [xi|] eqn:Hxi; simplify_eq/=.
  rewrite !take_insert_lt by done.
  apply Permutation_insert_swap; by rewrite lookup_take_lt.
Qed.

(** A shuffle from position [i] down leaves what is above [i] alone. *)
Lemma shuffle_from_above (R : PRNG) {A} i (x y : list A) g g' k :
  in_range R → Random.shuffle_from R i x g = Some (y, g') →
  i < k → y !! k = x !! k.
Proof.
  intros HR. revert x g. induction i as [|i IH]; intros x g; simpl.
  { by intros [= -> _]. }
  pose proof (HR (S (S i)) g ltac:(lia)) as Hj.
  destruct (randbelow R (S (S i)) g) as [j g1]. simpl in Hj.
  destruct (Random.swap x (S i) j) as [x1|] eqn:Hs; simpl; [|done].
  intros Hy Hk. rewrite (IH _ _ Hy) by lia.
  apply (Acceptance.swap_lookup_other _ _ _ _ _ Hs); lia.
Qed.

(** Every arrangement that agrees with [x] above [i] is reached from [x]
    by some draws. *)
Lemma shuffle_from_reaches i (x y : list string) :
  NoDup x → length x = length y → i < length x →
  (∀ k, i < k → x !! k = y !! k) →
  take (S i) x ≡ₚ take (S i) y →
  ∃ v, v ∈ draws i ∧ ∀ t, Random.shuffle_from tape i x (v ++ t) = Some (y, t).
Proof.
  revert x. induction i as [|i IH]; intros x Hnd Hlen Hi Habove Htake.
  - exists []. split; [by left|]. intros t. simpl. do 2 f_equal.
    apply list_eq. intros [|k]; [|apply Habove; lia].
    destruct x as [|a x], y as [|b y]; simpl in *; try lia.
    by apply Permutation_singleton_inj in Htake as ->.
  - destruct (lookup_lt_is_Some_2 y (S i)) as [b Hb]; [lia|].
    assert (b ∈ take (S (S i)) x) as Hin.
    { rewrite Htake. apply list_elem_of_lookup. exists (S i).
      by rewrite lookup_take_lt by lia. }
    apply list_elem_of_lookup in Hin as [j Hj].
    apply lookup_take_Some in Hj as [Hj Hjlt].
    destruct (RandomFacts.swap_Some x (S i) j) as [x1 Hx1];
      [lia|by eapply lookup_lt_Some|].
    pose proof (RandomFacts.swap_length _ _ _ _ Hx1) as Hlen1.
    assert (x1 !! S i = Some b) as Hx1b
      by by rewrite (swap_lookup_fst _ _ _ _ Hx1).
    destruct (IH x1) as (v & Hv & Hrun).
    + by rewrite (RandomFacts.swap_Permutation _ _ _ _ Hx1).
    + lia.
    + lia.
    + intros k Hk. destruct (decide (k = S i)) as [->|]; [congruence|].
      rewrite (Acceptance.swap_lookup_other _ _ _ _ _ Hx1) by lia.
      apply Habove. lia.
    + pose proof (swap_take _ _ _ _ (S (S i)) Hx1 ltac:(lia) Hjlt) as Hp.
      rewrite Htake in Hp.
      rewrite (take_S_r x1 (S i) b), (take_S_r y (S i) b) in Hp by done.
      by apply Permutation_app_inv_r in Hp.
    + exists (j :: v). split.
      * apply TapeFacts.elem_of_draws_S. exists j, v. split_and!; [done|lia|done].
      * intros t. simpl app.
        rewrite TapeFacts.shuffle_from_tape_cons, Hx1 by lia. apply Hrun.
Qed.

(** Different draws give different arrangements. *)
Lemma shuffle_from_inj i (x : list string) v1 v2 :
  NoDup x → i < length x → v1 ∈ draws i → v2 ∈ draws i →
  fst <$> Random.shuffle_from tape i x v1
  = fst <$> Random.shuffle_from tape i x v2 →
  v1 = v2.
Proof.
  revert x v1 v2. induction i as [|i IH]; intros x v1 v2 Hnd Hi Hv1 Hv2.
  { apply list_elem_of_singleton in Hv1 as ->.
    by apply list_elem_of_singleton in Hv2 as ->. }
  apply TapeFacts.elem_of_draws_S in Hv1 as (j1 & w1 & -> & Hj1 & Hw1).
  apply TapeFacts.elem_of_draws_S in Hv2 as (j2 & w2 & -> & Hj2 & Hw2).
  rewrite !TapeFacts.shuffle_from_tape_cons by done.
  destruct (RandomFacts.swap_Some x (S i) j1) as [x1 Hx1]; [lia..|].
  destruct (RandomFacts.swap_Some x (S i) j2) as [x2 Hx2]; [lia..|].
  rewrite Hx1, Hx2. simpl.
  pose proof (RandomFacts.swap_length _ _ _ _ Hx1) as Hl1.
  pose proof (RandomFacts.swap_length _ _ _ _ Hx2) as Hl2.
  destruct (RandomFacts.shuffle_from_Some tape i x1 w1 in_range_tape)
    as [[y1 t1] Hy1]; [lia|].
  destruct (RandomFacts.shuffle_from_Some tape i x2 w2 in_range_tape)
    as [[y2 t2] Hy2]; [lia|].
  rewrite Hy1, Hy2. simpl. intros [= <-].
  assert (x !! j1 = x !! j2) as Hjj.
  { rewrite <-(swap_lookup_fst _ _ _ _ Hx1), <-(swap_lookup_fst _ _ _ _ Hx2).
    rewrite <-(shuffle_from_above tape i x1 y1 w1 t1 (S i) in_range_tape Hy1)
      by lia.
    by rewrite <-(shuffle_from_above tape i x2 y1 w2 t2 (S i) in_range_tape Hy2)
      by lia. }
  destruct (lookup_lt_is_Some_2 x j1) as [a Ha]; [lia|].
  assert (j1 = j2) as <-.
  { eapply NoDup_lookup; [done..|]. by rewrite <-Hjj. }
  f_equal. assert (x2 = x1) as -> by congruence.
  apply (IH x1); [|lia|done..|by rewrite Hy1, Hy2].
  by rewrite (RandomFacts.swap_Permutation _ _ _ _ Hx1).
Qed.


(** X3.  With a generator that answers in range, [random.shuffle] never
    indexes outside the list, so [gen_derangement] never raises: it
    returns or is still looping. *)
Theorem gen_derangement_never_raises (R : PRNG) fuel names (g : rng R) e :
  in_range R →
  gen_derangement R fuel names g ≠ Raised e
  ∧ ∃ y g', Random.shuffle R names g = Some (y, g')
            ∧ y ≡ₚ names ∧ length y = length names.
Proof.
  intros HR. split.
  - by apply DerangeFacts.shuffle_and_check_no_raise.
  - destruct (RandomFacts.shuffle_Some R names g HR) as [[y g'] Hy].
    exists y, g'. split; [done|].
    apply RandomFacts.shuffle_Permutation in Hy. by rewrite Hy.
Qed.

Lemma gen_derangement_never_raises_witness :
  in_range lcg
  ∧ gen_derangement lcg 2 ["Ann"; "Bob"; "Cy"] 1%Z ≠ Raised IndexError
  ∧ ∃ y g', Random.shuffle lcg ["Ann"; "Bob"; "Cy"] 1%Z = Some (y, g')
            ∧ y ≡ₚ ["Ann"; "Bob"; "Cy"] ∧ length y = 3.
Proof.
  split; [exact in_range_lcg|].
  exact (gen_derangement_never_raises lcg 2 ["Ann"; "Bob"; "Cy"] 1%Z
           IndexError in_range_lcg).
Defined.

(** X4.  The generator on fewer than two names: on a single name no
    shuffle ever passes the check, so the loop does not return, whatever
    the generator; on no name it returns the empty mapping at once and
    draws nothing. *)
Theorem gen_derangement_degenerate (R : PRNG) fuel (a : string) (g : rng R) :
  gen_derangement R fuel [a] g = Running
  ∧ gen_derangement R (S fuel) [] g = Returned (∅, g).
Proof.
  split; [|done]. unfold gen_derangement.
  induction fuel as [|fuel IH]; [done|].
  cbn [shuffle_and_check Random.shuffle Random.shuffle_from length Nat.sub].
  unfold no_self_gift. simpl.
  by rewrite bool_decide_eq_false_2 by (by intros ?).
Qed.

(** X5.  No derangement is left out and none is favoured: for every
    arrangement of the names without a fixed point there is exactly one
    sequence of draws of a shuffle on which the first iteration reaches
    it, and on it [gen_derangement] returns the mapping onto that
    arrangement. *)
Theorem every_derangement_is_drawn (names target : list string) :
  NoDup names → target ≡ₚ names → no_self_gift names target = true →
  ∃ v, v ∈ draws (length names - 1)
    ∧ (∀ fuel t, gen_derangement tape (S fuel) names (v ++ t)
                 = Returned (dict (zip names target), t))
    ∧ (∀ v', v' ∈ draws (length names - 1) →
             arranged names v' = target → v' = v).
Proof.
  intros Hnd Hp Hok.
  assert (length target = length names) as Hlen by by rewrite Hp.
  destruct names as [|a names].
  { destruct target; [|done]. exists []. split_and!; [by left|done|].
    by intros v' ->%list_elem_of_singleton. }
  assert (1 ≤ length (a :: names)) as Hpos by (simpl; lia).
  destruct (shuffle_from_reaches (length (a :: names) - 1) (a :: names) target)
    as (v & Hv & Hrun).
  - done.
  - done.
  - simpl. lia.
  - intros k Hk. rewrite !lookup_ge_None_2; [done|simpl in *; lia..].
  - rewrite !take_ge by (simpl in *; lia). done.
  - assert (arranged (a :: names) v = target) as Harr.
    { unfold arranged, Random.shuffle. specialize (Hrun []).
      rewrite app_nil_r in Hrun. by rewrite Hrun. }
    exists v. split_and!; [done| |].
    + intros fuel t. unfold gen_derangement.
      rewrite Counting.shuffle_and_check_tape, Harr, Hok by done. done.
    + intros v' Hv' Harr'.
      apply (shuffle_from_inj (length (a :: names) - 1) (a :: names));
        [done|simpl; lia|done..|].
      pose proof (Counting.shuffle_tape_arranged (a :: names) v [] Hpos Hv) as H1.
      pose proof (Counting.shuffle_tape_arranged (a :: names) v' [] Hpos Hv')
        as H2.
      rewrite app_nil_r in H1, H2. unfold Random.shuffle in H1, H2.
      by rewrite H1, H2, Harr, Harr'.
Qed.

Lemma every_derangement_is_drawn_witness :
  let names := ["Ann"; "Bob"; "Cy"] in
  let target := ["Cy"; "Ann"; "Bob"] in
  NoDup names ∧ target ≡ₚ names ∧ no_self_gift names target = true
  ∧ ∃ v, v ∈ draws (length names - 1)
      ∧ (∀ fuel t, gen_derangement tape (S fuel) names (v ++ t)
                   = Returned (dict (zip names target), t))
      ∧ (∀ v', v' ∈ draws (length names - 1) →
               arranged names v' = target → v' = v).
Proof.
  intros names target.
  assert (NoDup names) as H1.
  { apply (bool_decide_unpack _). vm_compute. exact I. }
  assert (target ≡ₚ names) as H2.
  { apply (bool_decide_unpack _). vm_compute. exact I. }
  assert (no_self_gift names target = true) as H3 by (vm_compute; reflexivity).
  split; [exact H1|]. split; [exact H2|]. split; [exact H3|].
  exact (every_derangement_is_drawn names target H1 H2 H3).
Defined.
End DrawSpec.

(** ** Looking a name up *)

Module LookupSpec.
Import Text Session SessionFacts.

Section Loop.
Context (cfg : config) (assignments : gmap string string)
        (names : list string).
Implicit Types (who : string) (v : gset string) (line : string).

Local Abbreviation step :=
  (Session.step cfg assignments (build_lookup names)).
Local Abbreviation reveal := (Session.reveal cfg assignments).




End Loop.



End LookupSpec.

(** ** The selection prompt *)

Module SelectionSpec.
Import Text Session SessionFacts.

(** *** Numbers as they are printed and read *)

Lemma pretty_char_digit (d : N) :
  (d < 10)%N →
  is_digit (pretty_N_char d) = true
  ∧ nat_of_ascii (pretty_N_char d) - 48 = N.to_nat d.
Proof.
  intros Hd.
  assert (d = 0 ∨ d = 1 ∨ d = 2 ∨ d = 3 ∨ d = 4 ∨ d = 5 ∨ d = 6 ∨ d = 7
          ∨ d = 8 ∨ d = 9)%N as Hcases by lia.
  repeat (destruct Hcases as [->|Hcases]; [by vm_compute|]).
  subst. by vm_compute.
Qed.

Lemma pretty_go_digits (x : N) (s : string) :
  all_digits s = true → all_digits (pretty_N_go x s) = true.
Proof.
  revert s. induction (N.lt_wf_0 x) as [x _ IH]; intros s Hs.
  destruct (decide (x = 0)%N) as [->|Hx]; [by rewrite pretty_N_go_0|].
  rewrite pretty_N_go_step by lia. apply IH; [apply N.div_lt; lia|].
  simpl. rewrite Hs, andb_true_r.
  apply pretty_char_digit, N.mod_lt. lia.
Qed.

Lemma pretty_go_int (x : N) (s : string) :
  ∃ k, ∀ acc, int_from acc (pretty_N_go x s)
              = int_from (acc * 10 ^ k + N.to_nat x) s.
Proof.
  revert s. induction (N.lt_wf_0 x) as [x _ IH]; intros s.
  destruct (decide (x = 0)%N) as [->|Hx].
  { exists 0. intros acc. rewrite pretty_N_go_0. simpl. f_equal. lia. }
  destruct (IH (x `div` 10)%N ltac:(apply N.div_lt; lia)
               (String (pretty_N_char (x `mod` 10)) s)) as [k Hk].
  exists (S k). intros acc. rewrite pretty_N_go_step, Hk by lia.
  cbn [int_from]. f_equal.
  destruct (pretty_char_digit (x `mod` 10)%N) as [_ ->];
    [apply N.mod_lt; lia|].
  rewrite Nat.pow_succ_r'.
  pose proof (N.div_mod x 10 ltac:(lia)) as Hdm.
  assert (N.to_nat x = 10 * N.to_nat (x `div` 10) + N.to_nat (x `mod` 10))
    as -> by lia.
  lia.
Qed.

(** What [str] prints for a number, [int] reads back. *)
Lemma int_pretty (n : nat) : int (pretty n) = n.
Proof.
  unfold pretty, pretty_nat, pretty, pretty_N.
  case_decide as Hn; [by replace n with 0 by lia|].
  destruct (pretty_go_int (N.of_nat n) "") as [k Hk].
  unfold int. rewrite Hk. simpl. lia.
Qed.

Lemma all_digits_pretty (n : nat) : all_digits (pretty n) = true.
Proof.
  unfold pretty, pretty_nat, pretty, pretty_N.
  case_decide; [done|]. by apply pretty_go_digits.
Qed.

Lemma isdigit_pretty (n : nat) : isdigit (pretty n) = true.
Proof.
  pose proof (all_digits_pretty n) as Hd. pose proof (int_pretty n) as Hi.
  destruct (pretty n) eqn:E; [|done].
  unfold pretty, pretty_nat, pretty, pretty_N in E.
  case_decide; [done|].
  assert (n = 0) as -> by (by rewrite <-Hi). done.
Qed.

Lemma digit_not_space c : is_digit c = true → is_space c = false.
Proof. destruct c as [[] [] [] [] [] [] [] []]; vm_compute; congruence. Qed.

Lemma lstrip_digits s : all_digits s = true → lstrip s = s.
Proof.
  destruct s as [|c s]; [done|]. simpl.
  intros [Hc _]%andb_true_iff. by rewrite digit_not_space.
Qed.

Lemma rev_app_digits s acc :
  all_digits s = true → all_digits acc = true →
  all_digits (String.rev_app s acc) = true.
Proof.
  revert acc. induction s as [|c s IH]; intros acc; simpl; [done|].
  intros [Hc Hs]%andb_true_iff Hacc. apply IH; [done|]. simpl.
  by rewrite Hc, Hacc.
Qed.

Lemma rev_app_rev_app s acc acc' :
  String.rev_app (String.rev_app s acc) acc'
  = String.rev_app acc (s +:+ acc').
Proof.
  revert acc. induction s as [|c s IH]; intros acc; simpl; [done|].
  rewrite IH. simpl. done.
Qed.

(** Stripping leaves a string of digits as it is. *)
Lemma strip_digits s : all_digits s = true → strip s = s.
Proof.
  intros Hs. unfold strip. rewrite (lstrip_digits s Hs).
  rewrite lstrip_digits by (by apply rev_app_digits).
  unfold String.rev. rewrite rev_app_rev_app. simpl.
  induction s as [|c s IH]; [done|].
  change (String c s +:+ "") with (String c (s +:+ "")).
  f_equal. apply IH. simpl in Hs. by apply andb_true_iff in Hs as [_ ?].
Qed.

Section Loop.
Context (cfg : config) (assignments : gmap string string)
        (lc_to_names : gmap string (list string)).
Implicit Types (cs : list string) (v : gset string).

Local Abbreviation step := (Session.step cfg assignments lc_to_names).
Local Abbreviation reveal := (Session.reveal cfg assignments).

(** X9.  The number printed in front of a candidate, typed at the
    selection prompt, selects that candidate. *)
Theorem typed_label_selects cs i c v :
  cs !! i = Some c →
  list_candidates cs !! i = Some (Print ("  " +:+ pretty (S i) +:+ ". " +:+ c))
  ∧ step {| ctl := Disambiguating cs; viewed := v |} (pretty (S i))
    = ((reveal c v).1, Input prompt_selection :: (reveal c v).2).
Proof.
  intros Hc. split.
  { unfold list_candidates. by rewrite list_lookup_imap, Hc. }
  unfold Session.step, on_selection. cbn [ctl viewed].
  rewrite (strip_digits (pretty (S i))) by apply all_digits_pretty.
  pose proof (isdigit_pretty (S i)) as Hd.
  rewrite bool_decide_eq_false_2 by (by destruct (pretty (S i))).
  rewrite bool_decide_eq_false_2 by by apply SessionSpec.cancel_not_digits.
  rewrite Hd, int_pretty. apply lookup_lt_Some in Hc as Hlt.
  rewrite (proj2 (Nat.leb_le 1 (S i))) by lia.
  rewrite (proj2 (Nat.leb_le (S i) (length cs))) by lia.
  cbn [andb]. replace (S i - 1) with i by lia. rewrite Hc.
  by destruct (Session.reveal _ _ _ _).
Qed.

End Loop.

Lemma typed_label_selects_witness :
  let cfg := configure {| allow_repeat := false; timeout := None;
                          no_enter := false; seed := None |} in
  let assignments : gmap string string :=
    {["Alice" := "Bob"; "alice" := "Alice"; "Bob" := "alice"]} in
  let cs := ["Alice"; "alice"] in
  cs !! 1 = Some "alice"
  ∧ list_candidates cs !! 1 = Some (Print "  2. alice")
  ∧ step cfg assignments ∅ {| ctl := Disambiguating cs; viewed := ∅ |} "2"
    = ((reveal cfg assignments "alice" ∅).1,
       Input prompt_selection :: (reveal cfg assignments "alice" ∅).2).
Proof.
  intros cfg assignments cs.
  assert (cs !! 1 = Some "alice") as H by reflexivity.
  split; [exact H|].
  exact (typed_label_selects cfg assignments ∅ cs 1 "alice" ∅ H).
Defined.

End SelectionSpec.

(** ** The ledger and the screen over a whole session *)

Module TraceSpec.
Import Text Session SessionFacts.

Lemma filter_eq_not_elem {A} `{EqDecision A} (x : A) (l : list A) :
  x ∉ l → filter (λ e, e = x) l = [].
Proof.
  induction l as [|y l IH]; [done|].
  intros [Hne Hl]%not_elem_of_cons.
  rewrite filter_cons_False by congruence. auto.
Qed.

Section Loop.
Context (cfg : config) (assignments : gmap string string)
        (names : list string).
Implicit Types (who rcp : string) (v : gset string) (s : session).

Local Abbreviation lc_to_names := (build_lookup names).
Local Abbreviation step := (Session.step cfg assignments lc_to_names).
Local Abbreviation steps := (Session.steps cfg assignments lc_to_names).
Local Abbreviation run := (Session.run cfg assignments lc_to_names).
Local Abbreviation reveal := (Session.reveal cfg assignments).

(** Only participants are put on the ledger or offered as candidates. *)
Lemma step_participants s line :
  (∀ p, p ∈ viewed s → p ∈ names) →
  (∀ cs c, ctl s = Disambiguating cs → c ∈ cs → c ∈ names) →
  (∀ p, p ∈ viewed (step s line).1 → p ∈ names)
  ∧ (∀ cs c, ctl (step s line).1 = Disambiguating cs → c ∈ cs → c ∈ names).
Proof.
  intros Hv Hc.
  destruct (step_shape cfg assignments lc_to_names s line)
    as [(Hsame & _ & Hcs & _)|(pr & who & Hres & Heq)].
  - split; [by rewrite Hsame|]. intros cs c Hctl Hin.
    destruct (Hcs cs Hctl) as [Hold|(_ & _ & Hlook)]; [by eapply Hc|].
    by destruct (build_lookup_elem _ _ _ _ Hlook Hin).
  - assert (who ∈ names) as Hwho.
    { destruct (ctl s) as [|cs| | |x] eqn:Hctl; try done.
      - destruct Hres as (_ & cs & Hlook & Hin).
        by destruct (build_lookup_elem _ _ _ _ Hlook Hin).
      - by eapply Hc. }
    rewrite Heq. simpl. split.
    + intros p.
      destruct (reveal_viewed cfg assignments who (viewed s)) as [-> | ->];
        [by auto|].
      intros [->%elem_of_singleton|Hp]%elem_of_union; auto.
    + intros cs c Hctl.
      pose proof (reveal_ctl cfg assignments who (viewed s)) as Hr.
      by rewrite Hctl in Hr.
Qed.

Lemma steps_participants s stdin :
  (∀ p, p ∈ viewed s → p ∈ names) →
  (∀ cs c, ctl s = Disambiguating cs → c ∈ cs → c ∈ names) →
  ∀ p, p ∈ viewed (steps s stdin).1 → p ∈ names.
Proof.
  revert s. induction stdin as [|line rest IH]; intros s Hv Hc; simpl; [done|].
  destruct (step_participants s line Hv Hc) as [Hv1 Hc1].
  destruct (step s line) as [s1 evs1]. specialize (IH s1 Hv1 Hc1).
  by destruct (Session.steps _ _ _ s1 rest) as [s2 evs2].
Qed.

(** A recipient on the screen is the one assigned to someone who is now
    on the ledger. *)
Lemma step_gift s line rcp :
  Print (msg_gift rcp) ∈ (step s line).2 →
  ∃ who, who ∈ viewed (step s line).1 ∧ assignments !! who = Some rcp.
Proof.
  destruct (step_shape cfg assignments lc_to_names s line)
    as [(_ & Hq & _)|(pr & who & _ & ->)].
  - intros [_ Hno]%Hq. by destruct (Hno rcp).
  - simpl. intros [?|Hin]%elem_of_cons; [done|].
    apply reveal_events in Hin as [[_ Hno]|[Hv [Heq|(r & Hr & Heq)]]].
    + by destruct (Hno rcp).
    + apply Print_inj in Heq. symmetry in Heq.
      by apply msg_header_not_gift in Heq.
    + apply Print_inj, msg_gift_inj in Heq as ->. eauto.
Qed.

Lemma steps_gift s stdin rcp :
  Print (msg_gift rcp) ∈ (steps s stdin).2 →
  ∃ who, who ∈ viewed (steps s stdin).1 ∧ assignments !! who = Some rcp.
Proof.
  revert s. induction stdin as [|line rest IH]; intros s; simpl.
  { by intros ?%elem_of_nil. }
  pose proof (step_gift s line rcp) as H1.
  destruct (step s line) as [s1 evs1]. specialize (IH s1).
  pose proof (steps_viewed_mono cfg assignments lc_to_names s1 rest) as Hmono.
  destruct (Session.steps _ _ _ s1 rest) as [s2 evs2]. simpl in *.
  intros [Hin|Hin]%elem_of_app; [|auto].
  destruct (H1 Hin) as (who & Hwho & Hr). exists who. auto.
Qed.


(** X11.  Over a whole session, from the first prompt to the end of the
    input: the ledger holds exactly those whose header was shown; they
    are participants; and every recipient shown is the one assigned to
    someone on the ledger. *)
Theorem ledger_is_what_was_shown (stdin : list string) :
  (∀ who, who ∈ viewed (run start stdin).1
          ↔ Print (msg_header who) ∈ (run start stdin).2)
  ∧ (∀ who, who ∈ viewed (run start stdin).1 → who ∈ names)
  ∧ (∀ rcp, Print (msg_gift rcp) ∈ (run start stdin).2 →
       ∃ who, who ∈ viewed (run start stdin).1
              ∧ assignments !! who = Some rcp).
Proof.
  pose proof (run_viewed cfg assignments lc_to_names start stdin) as Hrv.
  pose proof (steps_recorded cfg assignments lc_to_names start stdin) as Hrec.
  pose proof (steps_participants start stdin) as Hpart.
  pose proof (steps_gift start stdin) as Hgift.
  pose proof (run_displayed cfg assignments lc_to_names start stdin) as Hdis.
  unfold Session.run in *.
  destruct (Session.steps _ _ _ start stdin) as [s1 evs1].
  pose proof (eof_quiet s1) as [Hv Hq].
  destruct (eof s1) as [s2 evs2]. simpl in *.
  split_and!.
  - intros who. split; [|apply Hdis].
    rewrite Hrv. intros Hin.
    destruct (Hrec who Hin) as (r & _ & Hh & _); [apply not_elem_of_empty|].
    apply elem_of_app. by left.
  - intros who. rewrite Hrv. by apply Hpart.
  - intros rcp [Hin|Hin]%elem_of_app.
    + rewrite Hrv. auto.
    + apply Hq in Hin as [_ Hno]. by destruct (Hno rcp).
Qed.

(** A step shows the header of [who] at most once. *)
Lemma step_header_once s line who :
  length (filter (λ e, e = Print (msg_header who)) (step s line).2) ≤ 1.
Proof.
  destruct (step_shape cfg assignments lc_to_names s line)
    as [(_ & Hq & _)|(pr & who' & _ & ->)].
  - rewrite filter_eq_not_elem; [simpl; lia|].
    intros [Hno _]%Hq. by destruct (Hno who).
  - cbn [fst snd]. rewrite filter_cons_False by done.
    destruct (reveal_cases cfg who' (viewed s)) as [[Hone Hon]|Hfirst].
    { rewrite reveal_again by done. cbn [fst snd].
      rewrite filter_cons_False; [simpl; lia|].
      intros Heq. vm_compute in Heq. discriminate Heq. }
    destruct (assignments !! who') as [r|] eqn:Hr.
    + rewrite (reveal_shown _ _ _ _ r) by done. cbn [fst snd app].
      rewrite filter_cons_False by done.
      rewrite filter_cons, (filter_cons_False _ (Print (msg_gift r))).
      2:{ intros Heq%Print_inj. symmetry in Heq.
          by apply msg_header_not_gift in Heq. }
      rewrite filter_eq_not_elem.
      2:{ intros [Hno _]%quiet_wait_then_clear. by destruct (Hno who). }
      case_decide; simpl; lia.
    + rewrite reveal_unknown by done. simpl. lia.
Qed.

Lemma steps_header_once s stdin who :
  one_shot_reveal cfg = true →
  length (filter (λ e, e = Print (msg_header who)) (steps s stdin).2)
  ≤ (if decide (who ∈ viewed s) then 0 else 1).
Proof.
  intros Hone. revert s.
  induction stdin as [|line rest IH]; intros s; simpl.
  { case_decide; simpl; lia. }
  pose proof (step_header_once s line who) as Hstep.
  pose proof (step_not_again cfg assignments lc_to_names s line who Hone)
    as Hagain.
  pose proof (step_displayed cfg assignments lc_to_names s line who) as Hdis.
  pose proof (step_viewed_mono cfg assignments lc_to_names s line) as Hmono.
  destruct (step s line) as [s1 evs1]. specialize (IH s1).
  destruct (Session.steps _ _ _ s1 rest) as [s2 evs2]. simpl in *.
  rewrite filter_app, length_app.
  destruct (decide (who ∈ viewed s)) as [Hin|Hin].
  - rewrite decide_True in IH by auto.
    rewrite filter_eq_not_elem by auto. simpl. lia.
  - destruct (decide (Print (msg_header who) ∈ evs1)) as [Hev|Hev].
    + rewrite decide_True in IH by auto. lia.
    + rewrite (filter_eq_not_elem _ evs1) by done. simpl.
      case_decide; lia.
Qed.

(** X12.  In one-shot mode nobody's header is shown twice in a session,
    whatever is typed. *)
Theorem one_shot_shows_once (stdin : list string) (who : string) :
  one_shot_reveal cfg = true →
  length (filter (λ e, e = Print (msg_header who)) (run start stdin).2) ≤ 1.
Proof.
  intros Hone. pose proof (steps_header_once start stdin who Hone) as Hs.
  rewrite decide_False in Hs by apply not_elem_of_empty.
  unfold Session.run.
  destruct (Session.steps _ _ _ start stdin) as [s1 evs1].
  pose proof (eof_quiet s1) as [_ Hq].
  destruct (eof s1) as [s2 evs2]. simpl in *.
  rewrite filter_app, length_app, (filter_eq_not_elem _ evs2); [simpl; lia|].
  intros [Hno _]%Hq. by destruct (Hno who).
Qed.
End Loop.

Lemma one_shot_shows_once_witness :
  let cfg := configure {| allow_repeat := false; timeout := Some 0%Z;
                          no_enter := false; seed := None |} in
  let names := ["Ann"; "Bob"] in
  let assignments : gmap string string := {["Ann" := "Bob"; "Bob" := "Ann"]} in
  let stdin := ["bob"; "Bob"; "BOB"; "ann"; "bob"] in
  one_shot_reveal cfg = true
  ∧ length (filter (λ e, e = Print (msg_header "Bob"))
                   (run cfg assignments (build_lookup names) start stdin).2) = 1
  ∧ length (filter (λ e, e = Print (msg_header "Bob"))
                   (run cfg assignments (build_lookup names) start stdin).2) ≤ 1.
Proof.
  intros cfg names assignments stdin.
  split; [reflexivity|]. split; [vm_compute; reflexivity|].
  exact (one_shot_shows_once cfg assignments names stdin "Bob" eq_refl).
Defined.
End TraceSpec.

(** ** After a reveal *)

Module WaitSpec.
Import Text Session SessionFacts.

(** X13.  A negative [--timeout] is taken as it is: the assignment is
    shown and the screen is cleared at once, with no notice and no
    pause, and the session is back at the main prompt. *)
Theorem negative_timeout_clears_at_once (a : args)
    (assignments : gmap string string) (who r : string) (v : gset string)
    (D : Z) :
  no_enter a = false → timeout a = Some D → (D < 0)%Z →
  assignments !! who = Some r →
  allow_repeat a = true ∨ who ∉ v →
  reveal (configure a) assignments who v
  = ({| ctl := AwaitingQuery; viewed := {[who]} ∪ v |},
     [Clear; Print (msg_header who); Print (msg_gift r); Clear]).
Proof.
  intros Hno Ht HD Hr Hfirst.
  rewrite (reveal_shown _ _ _ _ r); [|by destruct Hfirst as [Hrep|Hnot];
    [left; rewrite SessionSpec.one_shot_configure, Hrep|right]|done].
  unfold configure. rewrite Hno, Ht. cbn.
  by destruct (Z.leb_spec 0 D); [lia|].
Qed.

Lemma negative_timeout_clears_at_once_witness :
  let a := {| allow_repeat := false; timeout := Some (-3)%Z;
              no_enter := false; seed := None |} in
  let assignments : gmap string string := {["Ann" := "Bob"; "Bob" := "Ann"]} in
  no_enter a = false ∧ timeout a = Some (-3)%Z ∧ (-3 < 0)%Z
  ∧ assignments !! "Ann" = Some "Bob"
  ∧ (allow_repeat a = true ∨ "Ann" ∉ (∅ : gset string))
  ∧ reveal (configure a) assignments "Ann" ∅
    = ({| ctl := AwaitingQuery; viewed := {["Ann"]} ∪ ∅ |},
       [Clear; Print (msg_header "Ann"); Print (msg_gift "Bob"); Clear]).
Proof.
  intros a assignments.
  assert (assignments !! "Ann" = Some "Bob") as Hr by (vm_compute; reflexivity).
  assert (allow_repeat a = true ∨ "Ann" ∉ (∅ : gset string)) as Hf
    by (right; apply not_elem_of_empty).
  split; [reflexivity|]. split; [reflexivity|]. split; [lia|].
  split; [exact Hr|]. split; [exact Hf|].
  exact (negative_timeout_clears_at_once a assignments "Ann" "Bob" ∅ (-3)%Z
           eq_refl eq_refl ltac:(lia) Hr Hf).
Defined.

(** X14.  Without [--timeout] and [--no-enter] a reveal leaves the
    session waiting for Enter, and the line typed there is dropped
    whatever it says: the screen is cleared and the main prompt is back,
    also when the line is [exit] or a name. *)
Theorem enter_prompt_drops_the_line (a : args)
    (assignments : gmap string string)
    (lc_to_names : gmap string (list string)) (who r : string)
    (v : gset string) (line : string) :
  no_enter a = false → timeout a = None →
  assignments !! who = Some r →
  allow_repeat a = true ∨ who ∉ v →
  ctl (reveal (configure a) assignments who v).1 = AwaitingEnter
  ∧ step (configure a) assignments lc_to_names
         (reveal (configure a) assignments who v).1 line
    = ({| ctl := AwaitingQuery; viewed := {[who]} ∪ v |},
       [Input prompt_enter; Clear]).
Proof.
  intros Hno Ht Hr Hfirst.
  rewrite (reveal_shown _ _ _ _ r); [|by destruct Hfirst as [Hrep|Hnot];
    [left; rewrite SessionSpec.one_shot_configure, Hrep|right]|done].
  unfold configure. rewrite Hno, Ht. done.
Qed.

Lemma enter_prompt_drops_the_line_witness :
  let a := {| allow_repeat := false; timeout := None;
              no_enter := false; seed := None |} in
  let assignments : gmap string string := {["Ann" := "Bob"; "Bob" := "Ann"]} in
  let table := build_lookup ["Ann"; "Bob"] in
  no_enter a = false ∧ timeout a = None
  ∧ assignments !! "Ann" = Some "Bob"
  ∧ (allow_repeat a = true ∨ "Ann" ∉ (∅ : gset string))
  ∧ ctl (reveal (configure a) assignments "Ann" ∅).1 = AwaitingEnter
  ∧ step (configure a) assignments table
         (reveal (configure a) assignments "Ann" ∅).1 "exit"
    = ({| ctl := AwaitingQuery; viewed := {["Ann"]} ∪ ∅ |},
       [Input prompt_enter; Clear]).
Proof.
  intros a assignments table.
  assert (assignments !! "Ann" = Some "Bob") as Hr by (vm_compute; reflexivity).
  assert (allow_repeat a = true ∨ "Ann" ∉ (∅ : gset string)) as Hf
    by (right; apply not_elem_of_empty).
  split; [reflexivity|]. split; [reflexivity|].
  split; [exact Hr|]. split; [exact Hf|].
  exact (enter_prompt_drops_the_line a assignments table "Ann" "Bob" ∅ "exit"
           eq_refl eq_refl Hr Hf).
Defined.
End WaitSpec.

(** ** The lookup table *)

Module TableSpec.
Import Text Session SessionFacts.



End TableSpec.

(** ** The file, written and removed *)

Module FileSpec.
Import Store.

Lemma exit_cleanup_deletes (st : state) (path : string) :
  TMP_ASSIGN_PATH st = Some path → path ∉ undeletable st →
  os_path_exists path st = true →
  exit_cleanup st
  = Returned {| files := delete path (files st);
                undeletable := undeletable st;
                TMP_ASSIGN_PATH := Some path |}.
Proof.
  intros Hp Hund Hex. unfold exit_cleanup, os_remove, truthy.
  rewrite Hp, Hex. apply bool_decide_eq_true in Hex as [Hne _].
  by rewrite bool_decide_eq_true_2, bool_decide_eq_false_2 by done.
Qed.

(** X16.  Writing the assignments and cleaning up afterwards leaves the
    files as they were: [write_tmp_assign] adds one file, at a path that
    was free, for its owner only and holding the mapping; unless the
    operating system refuses the removal, [exit_cleanup] then removes
    that file and no other. *)
Theorem write_then_cleanup_restores (dir stem : string)
    (assignments : gmap string string) (st st1 : state) :
  write_tmp_assign dir stem assignments st = Returned st1 →
  let path := dir +:+ "secret_santa_" +:+ stem +:+ ".json" in
  path ∉ undeletable st →
  files st !! path = None
  ∧ files st1 = <[path := {| mode := owner_rw; content := Some assignments |}]>
                  (files st)
  ∧ TMP_ASSIGN_PATH st1 = Some path
  ∧ ∃ st2, exit_cleanup st1 = Returned st2 ∧ files st2 = files st.
Proof.
  intros Hw path Hund.
  destruct (StoreSpec.write_tmp_assign_created _ _ _ _ _ Hw)
    as (path' & Hp & Hne & Hfile & Hfree).
  unfold write_tmp_assign, mkstemp in Hw. fold path in Hw.
  destruct (os_path_exists path st) eqn:Hex; [done|].
  injection Hw as Hst1.
  assert (path' = path) as -> by (rewrite <-Hst1 in Hp; by injection Hp).
  assert (files st !! path = None) as Hnone.
  { apply bool_decide_eq_false in Hex.
    destruct (files st !! path) eqn:E; [|done]. destruct Hex. eauto. }
  assert (files st1
          = <[path := {| mode := owner_rw; content := Some assignments |}]>
              (files st)) as Hfiles.
  { rewrite <-Hst1. cbn. by rewrite insert_insert_eq. }
  assert (undeletable st1 = undeletable st) as Hu by by rewrite <-Hst1.
  split_and!; [done..|].
  rewrite (exit_cleanup_deletes st1 path Hp).
  - eexists. split; [done|]. cbn.
    rewrite Hfiles, delete_insert_eq. by apply delete_id.
  - by rewrite Hu.
  - apply bool_decide_eq_true. split; [done|]. rewrite Hfile. eauto.
Qed.

Lemma write_then_cleanup_restores_witness :
  let asg : gmap string string := {["Ann" := "Bob"; "Bob" := "Ann"]} in
  let st := {| files := {["/tmp/notes.txt" := {| mode := 420; content := None |}]};
               undeletable := ∅; TMP_ASSIGN_PATH := None |} in
  let path := "/tmp/" +:+ "secret_santa_" +:+ "k3x9_q0z" +:+ ".json" in
  ∃ st1, write_tmp_assign "/tmp/" "k3x9_q0z" asg st = Returned st1
    ∧ (path ∉ undeletable st)
    ∧ files st !! path = None
    ∧ files st1 = <[path := {| mode := owner_rw; content := Some asg |}]>
                    (files st)
    ∧ TMP_ASSIGN_PATH st1 = Some path
    ∧ ∃ st2, exit_cleanup st1 = Returned st2 ∧ files st2 = files st.
Proof.
  intros asg st path. eexists.
  assert (path ∉ undeletable st) as Hund by apply not_elem_of_empty.
  split; [reflexivity|]. split; [exact Hund|].
  exact (write_then_cleanup_restores "/tmp/" "k3x9_q0z" asg st _ eq_refl Hund).
Defined.

(** X17.  [exit_cleanup] touches nothing but the file recorded in
    [TMP_ASSIGN_PATH]: every other file is as it was, and the path stays
    recorded. *)
Theorem exit_cleanup_frame (st : state) :
  ∃ st1, exit_cleanup st = Returned st1
    ∧ TMP_ASSIGN_PATH st1 = TMP_ASSIGN_PATH st
    ∧ undeletable st1 = undeletable st
    ∧ (∀ p, TMP_ASSIGN_PATH st ≠ Some p → files st1 !! p = files st !! p)
    ∧ (∀ p f, files st1 !! p = Some f → files st !! p = Some f).
Proof.
  unfold exit_cleanup.
  destruct (TMP_ASSIGN_PATH st) as [path|] eqn:Hp; [|by exists st].
  destruct (truthy (Some path) && os_path_exists path st); [|by exists st].
  unfold os_remove.
  destruct (bool_decide (path ∈ undeletable st)); [by exists st|].
  destruct (os_path_exists path st); [|by exists st].
  eexists. split; [done|]. cbn. split_and!; [done..| |].
  - intros p Hne. apply lookup_delete_ne. congruence.
  - intros p f Hl. by apply lookup_delete_Some in Hl as [_ ?].
Qed.
End FileSpec.

(** ** The program from start to exit *)

Module ProgramSpec.
Import Text Session Main.





End ProgramSpec.

(** ** Typing one's own name *)

Module OwnNameSpec.
Import Text Session SessionFacts Main.













End OwnNameSpec.

(** ** Who receives from whom *)

Module GiftSpec.
Import Random Derange.

Lemma NoDup_fmap_eq {A B} (f : A → B) (l : list A) x y :
  NoDup (f <$> l) → x ∈ l → y ∈ l → f x = f y → x = y.
Proof.
  induction l as [|a l IH]; intros Hnd Hx Hy Hf.
  { by apply elem_of_nil in Hx. }
  rewrite fmap_cons in Hnd. apply NoDup_cons in Hnd as [Ha Hnd].
  apply elem_of_cons in Hx as [->|Hx]; apply elem_of_cons in Hy as [->|Hy].
  - done.
  - destruct Ha. rewrite Hf. apply list_elem_of_fmap. by exists y.
  - destruct Ha. rewrite <-Hf. apply list_elem_of_fmap. by exists x.
  - by apply IH.
Qed.

(** X22.  In a returned mapping every participant is the recipient of
    exactly one giver, who is another participant. *)
Theorem every_name_receives_once (R : PRNG) fuel names (g : rng R) m g' r :
  NoDup names →
  gen_derangement R fuel names g = Returned (m, g') →
  r ∈ names →
  ∃ p, p ∈ names ∧ m !! p = Some r ∧ p ≠ r
       ∧ ∀ q, m !! q = Some r → q = p.
Proof.
  intros Hnd Hgen Hr.
  pose proof Hgen as (rs & Hp & Hok & ->)%DerangeFacts.shuffle_and_check_returned.
  destruct (DerangeFacts.derangement_of_arrangement names rs)
    as (Hk & Hv & Hfix); [done..|].
  set (m := dict (zip names rs)) in *.
  assert (r ∈ (map_to_list m).*2) as Hin by (by rewrite Hv).
  apply list_elem_of_fmap in Hin as ([p r'] & -> & Hin). simpl in *.
  exists p. split_and!.
  - rewrite <-Hk. apply list_elem_of_fmap. by exists (p, r').
  - by apply elem_of_map_to_list.
  - intros ->. by apply (Hfix r' r'); [apply elem_of_map_to_list|].
  - intros q Hq. apply elem_of_map_to_list in Hq.
    assert (NoDup ((map_to_list m).*2)) as Hnd2 by (by rewrite Hv).
    by pose proof (NoDup_fmap_eq snd _ (q, r') (p, r') Hnd2 Hq Hin eq_refl)
      as [= ->].
Qed.

Lemma every_name_receives_once_witness :
  let names := ["Ann"; "Bob"; "Cy"; "Di"] in
  NoDup names ∧ "Cy" ∈ names
  ∧ ∃ m g', gen_derangement lcg 8 names 2024%Z = Returned (m, g')
      ∧ ∃ p, p ∈ names ∧ m !! p = Some "Cy" ∧ p ≠ "Cy"
             ∧ ∀ q, m !! q = Some "Cy" → q = p.
Proof.
  intros names.
  assert (NoDup names) as Hnd.
  { apply (bool_decide_unpack _). vm_compute. exact I. }
  assert ("Cy" ∈ names) as Hr.
  { apply (bool_decide_unpack _). vm_compute. exact I. }
  split; [exact Hnd|]. split; [exact Hr|].
  destruct (DerangeSpec.returned_inv (gen_derangement lcg 8 names 2024%Z))
    as [[m g'] E]; [vm_compute; reflexivity|].
  exists m, g'. split; [exact E|].
  exact (every_name_receives_once lcg 8 names 2024%Z m g' "Cy" Hnd E Hr).
Defined.
End GiftSpec.
